(** * slinky: proposal validation, the Uniswap V3 price fetcher and price
    aggregation.

    A shallow embedding of

    - [abci/proposals]: [ValidateExtendedCommitInfoPrepare] and
      [ValidateExtendedCommitInfoProcess];
    - [providers/apis/uniswapv3/fetcher.go]: [GetPool], [Fetch] and
      [ParseSqrtPriceX96];
    - the combination step of the price aggregation engine.

    Go's [error] results are [option]s ([None] is [nil]); a nil pointer
    dereference is the outcome [Panicked]; collaborators reached through
    interfaces or function values are section variables. *)

From Stdlib Require Import ZArith QArith Qcanon Qround String Ascii List Lia Lqa.
From Stdlib.Strings Require Import Byte.
From stdpp Require Import base option numbers list gmap strings sorting.

Set Default Proof Using "Type".

(** ** Outcomes of a Go call *)

Inductive outcome (A : Type) : Type :=
| Returned (a : A)
| Panicked.
Arguments Returned {A} a.
Arguments Panicked {A}.

(** * The extended commit info validator *)

Module Proposals.

(** ** Consensus engine types (cometbft/abci/types), as far as they are read *)

Record Validator := {
  Address : list byte;
  Power : Z
}.

Record VoteInfo := {
  VoteInfo_Validator : Validator;
  VoteInfo_BlockIdFlag : Z
}.

Record CommitInfo := {
  CommitInfo_Round : Z;
  CommitInfo_Votes : list VoteInfo
}.

Record ExtendedVoteInfo := {
  Ext_Validator : Validator;
  VoteExtension : list byte;
  ExtensionSignature : list byte;
  Ext_BlockIdFlag : Z
}.

Record ExtendedCommitInfo := {
  Round : Z;
  Votes : list ExtendedVoteInfo
}.

Record RequestProcessProposal := {
  Txs : list (list byte);
  ProposedLastCommit : CommitInfo;
  Height : Z
}.

(** [string(address)]: the map key is the raw address bytes. *)
Definition key_of (address : list byte) : string :=
  String.string_of_list_byte address.

Section Handler.

(** [State] is what [sdk.Context] gives access to, [Err] the errors of the
    collaborators, [VoteExt] the decoded [OracleVoteExtension] and
    [Strategy] the [CurrencyPairStrategy]. *)
Context {State Err VoteExt Strategy : Type}.

(** Errors a validation call can return: a collaborator's error passed on
    unchanged, or one made by [fmt.Errorf]. *)
Inductive error : Type :=
| Collab (e : Err)
| Errorf (msg : string).

(** Values attached to a log line. *)
Inductive logval : Type :=
| LInt (z : Z)
| LErr (e : error)
| LStr (s : string)
| LConsAddress (address : list byte).

(** What a call does besides returning, in order. *)
Inductive event : Type :=
| CallValidateVoteExtensions (eci : ExtendedCommitInfo)
| CallDecode (bz : list byte)
| CallValidateOracleVoteExtension (voteExt : VoteExt)
| LogError (msg : string) (keyvals : list (string * logval)).

(** The fields of [ProposalHandler] the two functions read. The two
    validation collaborators receive the context and may write to it. *)
Variable validateVoteExtensionsFn :
  State -> ExtendedCommitInfo -> option Err * State.
Variable Decode : list byte -> Err + VoteExt.
Variable ValidateOracleVoteExtension :
  State -> VoteExt -> Strategy -> option Err * State.
Variable currencyPairStrategy : Strategy.

(** A computation reads and writes the consensus state, may panic, and
    emits events. *)
Definition M (A : Type) : Type := State -> outcome A * State * list event.

Definition ret {A} (a : A) : M A := fun s => (Returned a, s, []).

Definition bind {A B} (m : M A) (k : A -> M B) : M B :=
  fun s =>
    match m s with
    | (Returned a, s1, ev1) =>
        match k a s1 with
        | (r, s2, ev2) => (r, s2, ev1 ++ ev2)
        end
    | (Panicked, s1, ev1) => (Panicked, s1, ev1)
    end.

Notation "x <- m ;; k" := (bind m (fun x => k))
  (at level 100, m at next level, right associativity).
Notation "m ;;; k" := (bind m (fun _ => k))
  (at level 100, right associativity).

Definition emit (e : event) : M unit := fun s => (Returned tt, s, [e]).

(** [p.f] on a pointer [p]. *)
Definition deref {A} (p : option A) : M A :=
  fun s =>
    match p with
    | Some a => (Returned a, s, [])
    | None => (Panicked, s, [])
    end.

Definition callValidateVoteExtensionsFn (eci : ExtendedCommitInfo)
  : M (option error) :=
  fun s =>
    match validateVoteExtensionsFn s eci with
    | (r, s') => (Returned (Collab <$> r), s', [CallValidateVoteExtensions eci])
    end.

Definition callDecode (bz : list byte) : M (error + VoteExt) :=
  fun s =>
    (Returned match Decode bz with
              | inl e => inl (Collab e)
              | inr v => inr v
              end, s, [CallDecode bz]).

Definition callValidateOracleVoteExtension (voteExt : VoteExt)
  : M (option error) :=
  fun s =>
    match ValidateOracleVoteExtension s voteExt currencyPairStrategy with
    | (r, s') =>
        (Returned (Collab <$> r), s', [CallValidateOracleVoteExtension voteExt])
    end.

Definition logError (msg : string) (keyvals : list (string * logval))
  : M unit :=
  emit (LogError msg keyvals).

(** [for _, vote := range votes { body }] where the body may [return err]:
    [Some e] leaves the function with [e], [None] goes on to the next
    vote; falling out of the loop reaches the final [return nil]. *)
Fixpoint forVotes (body : ExtendedVoteInfo -> M (option error))
    (votes : list ExtendedVoteInfo) : M (option error) :=
  match votes with
  | [] => ret None
  | vote :: rest =>
      r <- body vote ;;
      match r with
      | Some e => ret (Some e)
      | None => forVotes body rest
      end
  end.

Definition prepareBody (height : Z) (vote : ExtendedVoteInfo)
  : M (option error) :=
  let address := Address (Ext_Validator vote) in
  d <- callDecode (VoteExtension vote) ;;
  match d with
  | inl err => ret (Some err)
  | inr voteExt =>
      r <- callValidateOracleVoteExtension voteExt ;;
      match r with
      | Some err =>
          (logError "failed to validate oracle vote extension"
             [("height", LInt height);
              ("validator", LConsAddress address);
              ("err", LErr err)] ;;;
           ret (Some err))
      | None => ret None
      end
  end.

Definition ValidateExtendedCommitInfoPrepare (height : Z)
    (extendedCommitInfo : ExtendedCommitInfo) : M (option error) :=
  r <- callValidateVoteExtensionsFn extendedCommitInfo ;;
  match r with
  | Some err =>
      (logError
         "failed to validate vote extensions; vote extensions may not comprise a supermajority"
         [("height", LInt height); ("err", LErr err)] ;;;
       ret (Some err))
  | None => forVotes (prepareBody height) (Votes extendedCommitInfo)
  end.

(** [requestCommits[string(vote.Validator.Address)] = vote] for every vote
    of the request, in order: a later vote of the same address overwrites
    an earlier one. *)
Definition buildRequestCommits (votes : list VoteInfo)
  : gmap string VoteInfo :=
  fold_left
    (fun requestCommits vote =>
       <[key_of (Address (VoteInfo_Validator vote)) := vote]> requestCommits)
    votes ∅.

Definition processBody (req : RequestProcessProposal)
    (requestCommits : gmap string VoteInfo) (vote : ExtendedVoteInfo)
  : M (option error) :=
  let address := Address (Ext_Validator vote) in
  match requestCommits !! key_of address with
  | None =>
      (logError
         "no vote for validator in extended commit vote found in proposed last commit"
         [("height", LInt (Height req)); ("validator", LStr (key_of address))] ;;;
       ret (Some (Errorf
         "no vote for validator in extended commit vote found in proposed last commit")))
  | Some reqVote =>
      d <- callDecode (VoteExtension vote) ;;
      match d with
      | inl err => ret (Some err)
      | inr voteExt =>
          r <- callValidateOracleVoteExtension voteExt ;;
          match r with
          | Some err =>
              (logError "failed to validate oracle vote extension"
                 [("height", LInt (Height req));
                  ("height", LInt (Height req));
                  ("validator", LConsAddress address);
                  ("err", LErr err)] ;;;
               ret (Some err))
          | None => ret None
          end
      end
  end.

(** [req] is a pointer: [None] is the nil request, and reading a field of
    it panics. *)
Definition ValidateExtendedCommitInfoProcess
    (req : option RequestProcessProposal)
    (extendedCommitInfo : ExtendedCommitInfo) : M (option error) :=
  r <- callValidateVoteExtensionsFn extendedCommitInfo ;;
  match r with
  | Some err =>
      rq <- deref req ;;
      (logError
         "failed to validate vote extensions; vote extensions may not comprise a supermajority"
         [("height", LInt (Height rq)); ("err", LErr err)] ;;;
       ret (Some err))
  | None =>
      rq <- deref req ;;
      let requestCommits :=
        buildRequestCommits (CommitInfo_Votes (ProposedLastCommit rq)) in
      forVotes (processBody rq requestCommits) (Votes extendedCommitInfo)
  end.

(** Projections of a run. *)
Definition result {A} (x : outcome A * State * list event) : outcome A :=
  x.1.1.
Definition final {A} (x : outcome A * State * list event) : State :=
  x.1.2.
Definition events {A} (x : outcome A * State * list event) : list event :=
  x.2.

(** The extension bytes handed to the codec, in call order. *)
Definition decodeCalls (evs : list event) : list (list byte) :=
  omap (fun e => match e with CallDecode bz => Some bz | _ => None end) evs.

(** What the codec and the vote validator say about one vote, read in the
    consensus state [s]: the error the vote is rejected with, if any. *)
Definition voteError (s : State) (vote : ExtendedVoteInfo) : option Err :=
  match Decode (VoteExtension vote) with
  | inl e => Some e
  | inr voteExt => (ValidateOracleVoteExtension s voteExt currencyPairStrategy).1
  end.

(** The collaborators only read the consensus state. *)
Definition supermajorityReadOnly : Prop :=
  forall s eci, (validateVoteExtensionsFn s eci).2 = s.

Definition voteValidatorReadOnly : Prop :=
  forall s voteExt,
    (ValidateOracleVoteExtension s voteExt currencyPairStrategy).2 = s.

(** A computation that returns, in every state, and does not panic. *)
Definition returns {A} (m : M A) : Prop :=
  forall s, exists a s' ev, m s = (Returned a, s', ev).

(** Whenever the run handed [bz] to the codec and the codec rejects [bz],
    the run returned the codec's error and that call was the last thing it
    did. *)
Definition decodeFailureAborts
    (run : outcome (option error) * State * list event) : Prop :=
  forall bz e,
    CallDecode bz ∈ events run ->
    Decode bz = inl e ->
    result run = Returned (Some (Collab e)) /\
    exists pre, events run = pre ++ [CallDecode bz].

(** ** The loop *)

Lemma forVotes_nil body s : forVotes body [] s = (Returned None, s, []).
Proof. reflexivity. Qed.

Lemma forVotes_cons body vote rest s :
  forVotes body (vote :: rest) s =
  match body vote s with
  | (Returned (Some e), s1, ev1) => (Returned (Some e), s1, ev1 ++ [])
  | (Returned None, s1, ev1) =>
      match forVotes body rest s1 with
      | (r, s2, ev2) => (r, s2, ev1 ++ ev2)
      end
  | (Panicked, s1, ev1) => (Panicked, s1, ev1)
  end.
Proof.
  simpl. unfold bind.
  destruct (body vote s) as [[[[e|]|] s1] ev1]; reflexivity.
Qed.

Lemma forVotes_returns body votes :
  (forall vote, returns (body vote)) -> returns (forVotes body votes).
Proof.
  intros Hbody. induction votes as [|vote rest IH]; intros s.
  - exists None, s, []. reflexivity.
  - rewrite forVotes_cons.
    destruct (Hbody vote s) as (r & s1 & ev1 & ->).
    destruct r as [e|].
    + eauto.
    + destruct (IH s1) as (r2 & s2 & ev2 & ->). eauto.
Qed.

(** If some vote of the list makes the body return an error in every state,
    the loop returns an error. *)
Lemma forVotes_rejects body votes vote :
  (forall v, returns (body v)) ->
  vote ∈ votes ->
  (forall s, exists e, result (body vote s) = Returned (Some e)) ->
  forall s, exists e, result (forVotes body votes s) = Returned (Some e).
Proof.
  intros Hbody Hin Hrej. induction votes as [|v rest IH]; intros s.
  - by apply elem_of_nil in Hin.
  - rewrite forVotes_cons.
    destruct (Hbody v s) as (r & s1 & ev1 & Hrun). rewrite Hrun.
    destruct r as [e|]; [by exists e|].
    apply elem_of_cons in Hin as [->|Hin].
    + destruct (Hrej s) as (e & He). rewrite Hrun in He. discriminate.
    + destruct (IH Hin s1) as (e & He).
      destruct (forVotes body rest s1) as [[r2 s2] ev2]. by exists e.
Qed.

(** ** The loop bodies *)

Lemma prepareBody_run height vote s :
  prepareBody height vote s =
  match Decode (VoteExtension vote) with
  | inl e => (Returned (Some (Collab e)), s, [CallDecode (VoteExtension vote)])
  | inr voteExt =>
      match ValidateOracleVoteExtension s voteExt currencyPairStrategy with
      | (Some e, s') =>
          (Returned (Some (Collab e)), s',
           [CallDecode (VoteExtension vote);
            CallValidateOracleVoteExtension voteExt;
            LogError "failed to validate oracle vote extension"
              [("height", LInt height);
               ("validator", LConsAddress (Address (Ext_Validator vote)));
               ("err", LErr (Collab e))]])
      | (None, s') =>
          (Returned None, s',
           [CallDecode (VoteExtension vote);
            CallValidateOracleVoteExtension voteExt])
      end
  end.
Proof.
  unfold prepareBody, bind, callDecode, callValidateOracleVoteExtension.
  destruct (Decode (VoteExtension vote)) as [e|voteExt]; [reflexivity|].
  destruct (ValidateOracleVoteExtension s voteExt currencyPairStrategy)
    as [[e|] s']; reflexivity.
Qed.

Lemma processBody_found req requestCommits vote reqVote s :
  requestCommits !! key_of (Address (Ext_Validator vote)) = Some reqVote ->
  processBody req requestCommits vote s =
  match Decode (VoteExtension vote) with
  | inl e => (Returned (Some (Collab e)), s, [CallDecode (VoteExtension vote)])
  | inr voteExt =>
      match ValidateOracleVoteExtension s voteExt currencyPairStrategy with
      | (Some e, s') =>
          (Returned (Some (Collab e)), s',
           [CallDecode (VoteExtension vote);
            CallValidateOracleVoteExtension voteExt;
            LogError "failed to validate oracle vote extension"
              [("height", LInt (Height req));
               ("height", LInt (Height req));
               ("validator", LConsAddress (Address (Ext_Validator vote)));
               ("err", LErr (Collab e))]])
      | (None, s') =>
          (Returned None, s',
           [CallDecode (VoteExtension vote);
            CallValidateOracleVoteExtension voteExt])
      end
  end.
Proof.
  intros Hfound.
  unfold processBody, bind, callDecode, callValidateOracleVoteExtension.
  rewrite Hfound.
  destruct (Decode (VoteExtension vote)) as [e|voteExt]; [reflexivity|].
  destruct (ValidateOracleVoteExtension s voteExt currencyPairStrategy)
    as [[e|] s']; reflexivity.
Qed.

Lemma processBody_missing req requestCommits vote s :
  requestCommits !! key_of (Address (Ext_Validator vote)) = None ->
  processBody req requestCommits vote s =
  (Returned (Some (Errorf
     "no vote for validator in extended commit vote found in proposed last commit")),
   s,
   [LogError
      "no vote for validator in extended commit vote found in proposed last commit"
      [("height", LInt (Height req));
       ("validator", LStr (key_of (Address (Ext_Validator vote))))]]).
Proof.
  intros Hmissing. unfold processBody. rewrite Hmissing. reflexivity.
Qed.

Lemma prepareBody_returns height vote : returns (prepareBody height vote).
Proof.
  intros s. rewrite prepareBody_run.
  destruct (Decode (VoteExtension vote)) as [e|voteExt]; [eauto|].
  destruct (ValidateOracleVoteExtension s voteExt currencyPairStrategy)
    as [[e|] s']; eauto.
Qed.

Lemma processBody_returns req requestCommits vote :
  returns (processBody req requestCommits vote).
Proof.
  intros s.
  destruct (requestCommits !! key_of (Address (Ext_Validator vote)))
    as [reqVote|] eqn:Hlook.
  - rewrite (processBody_found _ _ _ _ _ Hlook).
    destruct (Decode (VoteExtension vote)) as [e|voteExt]; [eauto|].
    destruct (ValidateOracleVoteExtension s voteExt currencyPairStrategy)
      as [[e|] s']; eauto.
  - rewrite (processBody_missing _ _ _ _ Hlook). eauto.
Qed.

(** ** The lookup built from the request *)

Lemma key_of_inj a b : key_of a = key_of b -> a = b.
Proof.
  unfold key_of. intros H.
  rewrite <- (String.list_byte_of_string_of_list_byte a).
  rewrite <- (String.list_byte_of_string_of_list_byte b).
  by rewrite H.
Qed.

Lemma fold_insert_lookup_None (votes : list VoteInfo) (m : gmap string VoteInfo) k :
  fold_left
    (fun requestCommits vote =>
       <[key_of (Address (VoteInfo_Validator vote)) := vote]> requestCommits)
    votes m !! k = None <->
  m !! k = None /\
  Forall (fun vote => key_of (Address (VoteInfo_Validator vote)) <> k) votes.
Proof.
  revert m. induction votes as [|v rest IH]; intros m; simpl.
  - split; [intros H; split; [done|constructor] | by intros [H _]].
  - rewrite IH. rewrite lookup_insert_None. rewrite Forall_cons. tauto.
Qed.

(** An address has no entry in [requestCommits] exactly when no vote of the
    request carries these address bytes. *)
Lemma buildRequestCommits_None votes address :
  buildRequestCommits votes !! key_of address = None <->
  Forall (fun vote => Address (VoteInfo_Validator vote) <> address) votes.
Proof.
  unfold buildRequestCommits. rewrite fold_insert_lookup_None.
  split.
  - intros [_ H]. eapply Forall_impl; [exact H|]. simpl. intros v Hv Heq.
    apply Hv. by rewrite Heq.
  - intros H. split; [apply lookup_empty|].
    eapply Forall_impl; [exact H|]. simpl. intros v Hv Hk.
    by apply key_of_inj in Hk.
Qed.

(** ** The two entry points, run *)

Lemma Prepare_run height eci s :
  ValidateExtendedCommitInfoPrepare height eci s =
  match validateVoteExtensionsFn s eci with
  | (Some e, s') =>
      (Returned (Some (Collab e)), s',
       [CallValidateVoteExtensions eci;
        LogError
          "failed to validate vote extensions; vote extensions may not comprise a supermajority"
          [("height", LInt height); ("err", LErr (Collab e))]])
  | (None, s') =>
      match forVotes (prepareBody height) (Votes eci) s' with
      | (r, s2, ev2) => (r, s2, CallValidateVoteExtensions eci :: ev2)
      end
  end.
Proof.
  unfold ValidateExtendedCommitInfoPrepare, bind, callValidateVoteExtensionsFn.
  destruct (validateVoteExtensionsFn s eci) as [[e|] s']; reflexivity.
Qed.

Lemma Process_run req eci s :
  ValidateExtendedCommitInfoProcess (Some req) eci s =
  match validateVoteExtensionsFn s eci with
  | (Some e, s') =>
      (Returned (Some (Collab e)), s',
       [CallValidateVoteExtensions eci;
        LogError
          "failed to validate vote extensions; vote extensions may not comprise a supermajority"
          [("height", LInt (Height req)); ("err", LErr (Collab e))]])
  | (None, s') =>
      match forVotes
              (processBody req
                 (buildRequestCommits (CommitInfo_Votes (ProposedLastCommit req))))
              (Votes eci) s' with
      | (r, s2, ev2) => (r, s2, CallValidateVoteExtensions eci :: ev2)
      end
  end.
Proof.
  unfold ValidateExtendedCommitInfoProcess, bind, callValidateVoteExtensionsFn.
  destruct (validateVoteExtensionsFn s eci) as [[e|] s']; simpl; [reflexivity|].
  destruct (forVotes _ _ s') as [[r s2] ev2]. reflexivity.
Qed.

(** A nil request makes the process path panic at its first [req.Height] or
    [req.ProposedLastCommit], right after the supermajority check. *)
Lemma Process_nil_request eci s :
  ValidateExtendedCommitInfoProcess None eci s =
  (Panicked, (validateVoteExtensionsFn s eci).2,
   [CallValidateVoteExtensions eci]).
Proof.
  unfold ValidateExtendedCommitInfoProcess, bind, callValidateVoteExtensionsFn.
  destruct (validateVoteExtensionsFn s eci) as [[e|] s']; reflexivity.
Qed.

(** ** Decode failures *)

Lemma prepareBody_decodeFailureAborts height vote s :
  decodeFailureAborts (prepareBody height vote s).
Proof.
  intros bz e Hin Hdec. rewrite prepareBody_run in *.
  destruct (Decode (VoteExtension vote)) as [e0|voteExt] eqn:Hd.
  - apply list_elem_of_singleton in Hin. injection Hin as ->.
    rewrite Hd in Hdec. injection Hdec as ->.
    split; [reflexivity|]. by exists [].
  - assert (bz = VoteExtension vote) as ->; [|congruence].
    destruct (ValidateOracleVoteExtension s voteExt currencyPairStrategy)
      as [[e1|] s']; unfold events in Hin; simpl in Hin;
      repeat (apply elem_of_cons in Hin as [Hin|Hin]; [congruence|]);
      by apply elem_of_nil in Hin.
Qed.

Lemma processBody_decodeFailureAborts req requestCommits vote s :
  decodeFailureAborts (processBody req requestCommits vote s).
Proof.
  intros bz e Hin Hdec.
  destruct (requestCommits !! key_of (Address (Ext_Validator vote)))
    as [reqVote|] eqn:Hlook.
  - rewrite (processBody_found _ _ _ _ _ Hlook) in *.
    destruct (Decode (VoteExtension vote)) as [e0|voteExt] eqn:Hd.
    + apply list_elem_of_singleton in Hin. injection Hin as ->.
      rewrite Hd in Hdec. injection Hdec as ->.
      split; [reflexivity|]. by exists [].
    + assert (bz = VoteExtension vote) as ->; [|congruence].
      destruct (ValidateOracleVoteExtension s voteExt currencyPairStrategy)
        as [[e1|] s']; unfold events in Hin; simpl in Hin;
        repeat (apply elem_of_cons in Hin as [Hin|Hin]; [congruence|]);
        by apply elem_of_nil in Hin.
  - rewrite (processBody_missing _ _ _ _ Hlook) in Hin.
    apply list_elem_of_singleton in Hin. discriminate.
Qed.

Lemma forVotes_decodeFailureAborts body votes :
  (forall vote s, decodeFailureAborts (body vote s)) ->
  forall s, decodeFailureAborts (forVotes body votes s).
Proof.
  intros Hbody. induction votes as [|vote rest IH]; intros s bz e Hin Hdec.
  - by apply elem_of_nil in Hin.
  - rewrite forVotes_cons in *. specialize (Hbody vote s bz e).
    destruct (body vote s) as [[[[e1|]|] s1] ev1]; unfold events, result in *;
      simpl in *.
    + rewrite app_nil_r in *. by apply Hbody.
    + specialize (IH s1 bz e).
      destruct (forVotes body rest s1) as [[r2 s2] ev2]; simpl in *.
      apply elem_of_app in Hin as [Hin|Hin].
      * destruct (Hbody Hin Hdec) as [? _]. discriminate.
      * destruct (IH Hin Hdec) as [Hr [pre Hpre]]. split; [done|].
        exists (ev1 ++ pre). by rewrite Hpre, app_assoc.
    + destruct (Hbody Hin Hdec) as [? _]. discriminate.
Qed.

Lemma after_supermajority_decodeFailureAborts eci (r : outcome (option error))
    (s2 : State) (ev2 : list event) :
  decodeFailureAborts (r, s2, ev2) ->
  decodeFailureAborts (r, s2, CallValidateVoteExtensions eci :: ev2).
Proof.
  intros H bz e Hin Hdec. unfold events, result in *; simpl in *.
  apply elem_of_cons in Hin as [Hin|Hin]; [discriminate|].
  destruct (H bz e Hin Hdec) as [Hr [pre Hpre]]. split; [done|].
  exists (CallValidateVoteExtensions eci :: pre). simpl in *. by rewrite Hpre.
Qed.

Lemma Prepare_decodeFailureAborts height eci s :
  decodeFailureAborts (ValidateExtendedCommitInfoPrepare height eci s).
Proof.
  rewrite Prepare_run.
  destruct (validateVoteExtensionsFn s eci) as [[e0|] s'].
  - intros bz e Hin _. unfold events in Hin; simpl in Hin.
    repeat (apply elem_of_cons in Hin as [Hin|Hin]; [discriminate|]).
    by apply elem_of_nil in Hin.
  - pose proof (forVotes_decodeFailureAborts (prepareBody height) (Votes eci)
                  (prepareBody_decodeFailureAborts height) s') as H.
    destruct (forVotes (prepareBody height) (Votes eci) s') as [[r s2] ev2].
    by apply after_supermajority_decodeFailureAborts.
Qed.

Lemma Process_decodeFailureAborts req eci s :
  decodeFailureAborts (ValidateExtendedCommitInfoProcess req eci s).
Proof.
  destruct req as [req|].
  - rewrite Process_run.
    destruct (validateVoteExtensionsFn s eci) as [[e0|] s'].
    + intros bz e Hin _. unfold events in Hin; simpl in Hin.
      repeat (apply elem_of_cons in Hin as [Hin|Hin]; [discriminate|]).
      by apply elem_of_nil in Hin.
    + set (rc := buildRequestCommits _).
      pose proof (forVotes_decodeFailureAborts (processBody req rc) (Votes eci)
                    (processBody_decodeFailureAborts req rc) s') as H.
      destruct (forVotes (processBody req rc) (Votes eci) s') as [[r s2] ev2].
      by apply after_supermajority_decodeFailureAborts.
  - rewrite Process_nil_request. intros bz e Hin _.
    apply list_elem_of_singleton in Hin. discriminate.
Qed.

(** ** Votes that are rejected *)

Lemma prepareBody_rejects height vote e :
  Decode (VoteExtension vote) = inl e ->
  forall s, exists e', result (prepareBody height vote s) = Returned (Some e').
Proof.
  intros Hd s. rewrite prepareBody_run, Hd. by eexists.
Qed.

Lemma processBody_rejects_undecodable req requestCommits vote e :
  Decode (VoteExtension vote) = inl e ->
  forall s,
    exists e', result (processBody req requestCommits vote s) = Returned (Some e').
Proof.
  intros Hd s.
  destruct (requestCommits !! key_of (Address (Ext_Validator vote)))
    as [reqVote|] eqn:Hlook.
  - rewrite (processBody_found _ _ _ _ _ Hlook), Hd. by eexists.
  - rewrite (processBody_missing _ _ _ _ Hlook). by eexists.
Qed.

Lemma Prepare_rejects height eci vote :
  vote ∈ Votes eci ->
  (forall s, exists e, result (prepareBody height vote s) = Returned (Some e)) ->
  forall s,
    exists e, result (ValidateExtendedCommitInfoPrepare height eci s)
              = Returned (Some e).
Proof.
  intros Hin Hrej s. rewrite Prepare_run.
  destruct (validateVoteExtensionsFn s eci) as [[e0|] s']; [by eexists|].
  destruct (forVotes_rejects (prepareBody height) (Votes eci) vote
              (prepareBody_returns height) Hin Hrej s') as (e & He).
  destruct (forVotes (prepareBody height) (Votes eci) s') as [[r s2] ev2].
  by exists e.
Qed.

Lemma Process_rejects req eci vote :
  vote ∈ Votes eci ->
  (forall s, exists e,
      result (processBody req
                (buildRequestCommits (CommitInfo_Votes (ProposedLastCommit req)))
                vote s) = Returned (Some e)) ->
  forall s,
    exists e, result (ValidateExtendedCommitInfoProcess (Some req) eci s)
              = Returned (Some e).
Proof.
  intros Hin Hrej s. rewrite Process_run.
  destruct (validateVoteExtensionsFn s eci) as [[e0|] s']; [by eexists|].
  set (rc := buildRequestCommits _) in *.
  destruct (forVotes_rejects (processBody req rc) (Votes eci) vote
              (processBody_returns req rc) Hin Hrej s') as (e & He).
  destruct (forVotes (processBody req rc) (Votes eci) s') as [[r s2] ev2].
  by exists e.
Qed.

(** ** Claims about the failure paths *)

(** C1. When the supermajority predicate returns an error, both entry points
    return that very error and hand nothing to the codec. The process path is
    taken at a non-nil request, as its contract requires. *)
Theorem supermajority_failure_returns_error_before_decoding eci s e s' :
  validateVoteExtensionsFn s eci = (Some e, s') ->
  (forall height,
      result (ValidateExtendedCommitInfoPrepare height eci s)
        = Returned (Some (Collab e)) /\
      decodeCalls (events (ValidateExtendedCommitInfoPrepare height eci s)) = []) /\
  (forall req,
      result (ValidateExtendedCommitInfoProcess (Some req) eci s)
        = Returned (Some (Collab e)) /\
      decodeCalls (events (ValidateExtendedCommitInfoProcess (Some req) eci s)) = []).
Proof.
  intros Hfail. split.
  - intros height. rewrite Prepare_run, Hfail. split; reflexivity.
  - intros req. rewrite Process_run, Hfail. split; reflexivity.
Qed.

(** C2. On the process path, a vote of the extended commit info whose
    validator address (compared as raw bytes) occurs in no vote of
    [req.ProposedLastCommit.Votes] makes the call return a non-nil error,
    whatever the supermajority predicate, the codec and the vote validator
    say. *)
Theorem process_rejects_vote_missing_from_last_commit req eci vote s :
  vote ∈ Votes eci ->
  Forall (fun reqVote =>
            Address (VoteInfo_Validator reqVote) <> Address (Ext_Validator vote))
         (CommitInfo_Votes (ProposedLastCommit req)) ->
  exists e,
    result (ValidateExtendedCommitInfoProcess (Some req) eci s)
      = Returned (Some e).
Proof.
  intros Hin Hmissing. apply (Process_rejects req eci vote Hin).
  intros s0. apply buildRequestCommits_None in Hmissing.
  rewrite (processBody_missing _ _ _ _ Hmissing). by eexists.
Qed.

(** C3. In both entry points, a failing [Decode] ends the call: if the call
    handed some extension bytes to the codec and the codec rejects them, the
    call returns exactly that decode error and the failing [Decode] is the
    last thing the call did, so no later vote is looked at. Moreover a batch
    holding a vote the codec rejects is always answered with an error, never
    with nil. The process path is taken at a non-nil request. *)
Theorem decode_failure_invalidates_batch eci s :
  (forall height,
      decodeFailureAborts (ValidateExtendedCommitInfoPrepare height eci s) /\
      forall vote e,
        vote ∈ Votes eci -> Decode (VoteExtension vote) = inl e ->
        exists e',
          result (ValidateExtendedCommitInfoPrepare height eci s)
            = Returned (Some e')) /\
  (forall req,
      decodeFailureAborts (ValidateExtendedCommitInfoProcess (Some req) eci s) /\
      forall vote e,
        vote ∈ Votes eci -> Decode (VoteExtension vote) = inl e ->
        exists e',
          result (ValidateExtendedCommitInfoProcess (Some req) eci s)
            = Returned (Some e')).
Proof.
  split.
  - intros height. split; [apply Prepare_decodeFailureAborts|].
    intros vote e Hin Hd.
    exact (Prepare_rejects height eci vote Hin
             (prepareBody_rejects height vote e Hd) s).
  - intros req. split; [apply Process_decodeFailureAborts|].
    intros vote e Hin Hd.
    exact (Process_rejects req eci vote Hin
             (processBody_rejects_undecodable req _ vote e Hd) s).
Qed.

(** ** Read-only collaborators *)

(** The prepare loop over votes that are all accepted in [s], followed by
    more votes. *)
Lemma forVotes_prepare_accepted height pre s :
  voteValidatorReadOnly ->
  Forall (fun vote => voteError s vote = None) pre ->
  exists evpre,
    decodeCalls evpre = VoteExtension <$> pre /\
    forall rest,
      forVotes (prepareBody height) (pre ++ rest) s =
      match forVotes (prepareBody height) rest s with
      | (r, s2, ev2) => (r, s2, evpre ++ ev2)
      end.
Proof.
  intros Hro. induction 1 as [|vote pre Hvote Hpre (evpre & Hcalls & IH)].
  - exists []. split; [reflexivity|]. intros rest. simpl app.
    by destruct (forVotes (prepareBody height) rest s) as [[r s2] ev2].
  - unfold voteError in Hvote.
    destruct (Decode (VoteExtension vote)) as [e|voteExt] eqn:Hd; [discriminate|].
    exists ([CallDecode (VoteExtension vote);
             CallValidateOracleVoteExtension voteExt] ++ evpre).
    split; [simpl; by rewrite Hcalls|].
    intros rest. simpl app at 1. rewrite forVotes_cons, prepareBody_run, Hd.
    specialize (Hro s voteExt).
    destruct (ValidateOracleVoteExtension s voteExt currencyPairStrategy)
      as [[e|] s']; simpl in *; [discriminate|]. subst s'.
    rewrite IH.
    by destruct (forVotes (prepareBody height) rest s) as [[r s2] ev2].
Qed.

(** The prepare loop at a vote that is rejected in [s]. *)
Lemma forVotes_prepare_rejected height vote post s e :
  voteError s vote = Some e ->
  exists s' ev,
    decodeCalls ev = [VoteExtension vote] /\
    forVotes (prepareBody height) (vote :: post) s
      = (Returned (Some (Collab e)), s', ev).
Proof.
  intros Hvote. rewrite forVotes_cons, prepareBody_run. unfold voteError in Hvote.
  destruct (Decode (VoteExtension vote)) as [e0|voteExt].
  - injection Hvote as ->. eexists _, _. split; [|reflexivity]. reflexivity.
  - destruct (ValidateOracleVoteExtension s voteExt currencyPairStrategy)
      as [[e1|] s']; simpl in Hvote; [|discriminate].
    injection Hvote as ->. eexists _, _. split; [|reflexivity]. reflexivity.
Qed.

(** Either every vote is accepted, or there is a first one that is not. *)
Lemma first_rejected_vote s votes :
  Forall (fun vote => voteError s vote = None) votes \/
  exists pre vote post e,
    votes = pre ++ vote :: post /\
    Forall (fun vote => voteError s vote = None) pre /\
    voteError s vote = Some e.
Proof.
  induction votes as [|v rest [IH|(pre & vote & post & e & -> & Hpre & He)]].
  - left. constructor.
  - destruct (voteError s v) as [e|] eqn:Hv.
    + right. exists [], v, rest, e. by repeat split.
    + left. by constructor.
  - destruct (voteError s v) as [e0|] eqn:Hv.
    + right. exists [], v, (pre ++ vote :: post), e0. by repeat split.
    + right. exists (v :: pre), vote, post, e. repeat split; [|done].
      by constructor.
Qed.

Lemma decodeCalls_app ev1 ev2 :
  decodeCalls (ev1 ++ ev2) = decodeCalls ev1 ++ decodeCalls ev2.
Proof. apply omap_app. Qed.

(** ** Claims about the prepare path and about both paths as gates *)

(** C4. With collaborators that only read the consensus state, the prepare
    path returns nil exactly when the supermajority predicate succeeds and
    every vote, in order, decodes and passes the oracle vote validator; and
    the first vote that does not is where the call stops: it returns that
    vote's error, and the codec has seen the votes up to that one and no
    later one. *)
Theorem prepare_nil_iff_every_vote_accepted height eci s :
  supermajorityReadOnly -> voteValidatorReadOnly ->
  (result (ValidateExtendedCommitInfoPrepare height eci s) = Returned None <->
   (validateVoteExtensionsFn s eci).1 = None /\
   Forall (fun vote => voteError s vote = None) (Votes eci)) /\
  (forall pre vote post e,
      Votes eci = pre ++ vote :: post ->
      (validateVoteExtensionsFn s eci).1 = None ->
      Forall (fun vote => voteError s vote = None) pre ->
      voteError s vote = Some e ->
      result (ValidateExtendedCommitInfoPrepare height eci s)
        = Returned (Some (Collab e)) /\
      decodeCalls (events (ValidateExtendedCommitInfoPrepare height eci s))
        = VoteExtension <$> (pre ++ [vote])).
Proof.
  intros Hsm Hvv.
  assert (forall pre vote post e,
      Votes eci = pre ++ vote :: post ->
      (validateVoteExtensionsFn s eci).1 = None ->
      Forall (fun vote => voteError s vote = None) pre ->
      voteError s vote = Some e ->
      result (ValidateExtendedCommitInfoPrepare height eci s)
        = Returned (Some (Collab e)) /\
      decodeCalls (events (ValidateExtendedCommitInfoPrepare height eci s))
        = VoteExtension <$> (pre ++ [vote])) as Hfirst.
  { intros pre vote post e Hvotes Hok Hpre Hvote.
    rewrite Prepare_run, Hvotes. specialize (Hsm s eci).
    destruct (validateVoteExtensionsFn s eci) as [[e0|] s']; simpl in *;
      [discriminate|]. subst s'.
    destruct (forVotes_prepare_accepted height pre s Hvv Hpre)
      as (evpre & Hcalls & ->).
    destruct (forVotes_prepare_rejected height vote post s e Hvote)
      as (s2 & ev & Hev & ->).
    split; [reflexivity|]. unfold events; simpl.
    by rewrite decodeCalls_app, Hcalls, Hev, fmap_app. }
  split; [|exact Hfirst]. split.
  - intros Hnil.
    destruct (validateVoteExtensionsFn s eci) as [[e0|] s'] eqn:Hpred.
    { rewrite Prepare_run, Hpred in Hnil. discriminate. }
    split; [reflexivity|].
    destruct (first_rejected_vote s (Votes eci))
      as [Hall|(pre & vote & post & e & Hvotes & Hpre & Hvote)]; [done|].
    destruct (Hfirst pre vote post e Hvotes eq_refl Hpre Hvote) as [Hr _].
    rewrite Hr in Hnil. discriminate.
  - intros [Hok Hall]. rewrite Prepare_run. specialize (Hsm s eci).
    destruct (validateVoteExtensionsFn s eci) as [[e0|] s']; simpl in *;
      [discriminate|]. subst s'.
    destruct (forVotes_prepare_accepted height (Votes eci) s Hvv Hall)
      as (evpre & _ & Happ).
    specialize (Happ []). rewrite app_nil_r in Happ. by rewrite Happ.
Qed.

(** C7. At a non-nil request the process path always returns, with nil or
    with an error, and never panics, whatever the request's last commit and
    the extended commit info hold. With an empty vote list it returns what
    the supermajority predicate returned: nil when the predicate accepts. *)
Theorem process_is_total req eci s :
  exists r s' ev,
    ValidateExtendedCommitInfoProcess (Some req) eci s = (Returned r, s', ev) /\
    (Votes eci = [] -> r = Collab <$> (validateVoteExtensionsFn s eci).1).
Proof.
  rewrite Process_run.
  destruct (validateVoteExtensionsFn s eci) as [[e|] s'].
  - by eexists _, _, _.
  - set (rc := buildRequestCommits _).
    destruct (forVotes_returns (processBody req rc) (Votes eci)
                (processBody_returns req rc) s') as (r & s2 & ev2 & Hrun).
    rewrite Hrun. eexists _, _, _. split; [reflexivity|].
    intros Hnil. rewrite Hnil in Hrun. simpl in Hrun. unfold ret in Hrun.
    by injection Hrun as <- _ _.
Qed.

(** * More about the two entry points *)

(** The validator of [vote] has a vote in the request's last commit. *)
Definition inLastCommit (req : RequestProcessProposal)
    (vote : ExtendedVoteInfo) : Prop :=
  Exists (fun reqVote =>
            Address (VoteInfo_Validator reqVote) = Address (Ext_Validator vote))
         (CommitInfo_Votes (ProposedLastCommit req)).

(** The calls a run made to the collaborators, in order, without the log
    lines. *)
Definition collaboratorCalls (evs : list event) : list event :=
  omap (fun e => match e with LogError _ _ => None | _ => Some e end) evs.

(** The log lines a run wrote, in order. *)
Definition logLines (evs : list event)
  : list (string * list (string * logval)) :=
  omap (fun e => match e with
                 | LogError msg keyvals => Some (msg, keyvals)
                 | _ => None
                 end) evs.

(** Two runs that differ in their log lines at most. *)
Definition agree {A} (run1 run2 : outcome A * State * list event) : Prop :=
  result run1 = result run2 /\
  final run1 = final run2 /\
  collaboratorCalls (events run1) = collaboratorCalls (events run2).

(** The collaborator calls that go with a sequence of payloads handed to the
    codec: each payload is decoded, and what the codec made of it, if
    anything, is validated right after. *)
Definition perVoteCalls (payloads : list (list byte)) : list event :=
  flat_map
    (fun bz =>
       match Decode bz with
       | inl _ => [CallDecode bz]
       | inr voteExt => [CallDecode bz; CallValidateOracleVoteExtension voteExt]
       end) payloads.

(** How a run that ended accounts for itself in the log: an accepted batch
    writes nothing; a rejected one writes one line, the last thing the run
    did, which carries the returned error or is the returned error's text,
    unless the rejection is a decode failure, which is returned unlogged. *)
Definition logDiscipline
    (run : outcome (option error) * State * list event) : Prop :=
  match result run with
  | Returned None => logLines (events run) = []
  | Returned (Some e) =>
      (logLines (events run) = [] /\
       exists bz e0,
         last (events run) = Some (CallDecode bz) /\
         Decode bz = inl e0 /\ e = Collab e0) \/
      (exists msg keyvals,
          logLines (events run) = [(msg, keyvals)] /\
          last (events run) = Some (LogError msg keyvals) /\
          (("err"%string, LErr e) ∈ keyvals \/ e = Errorf msg))
  | Panicked => logLines (events run) = []
  end.

(** A loop body hands at most the vote's own payload to the codec; [Q] holds
    of the votes whose payload it hands over, and a body that hands over
    nothing does not go on to the next vote. *)
Definition decodesOwn (Q : ExtendedVoteInfo -> Prop)
    (body : ExtendedVoteInfo -> M (option error)) : Prop :=
  forall vote s,
    (decodeCalls (events (body vote s)) = [VoteExtension vote] /\ Q vote) \/
    (decodeCalls (events (body vote s)) = [] /\
     result (body vote s) <> Returned None).

(** ** The lookup, when it finds *)

Lemma fold_insert_lookup_is_Some (votes : list VoteInfo)
    (m : gmap string VoteInfo) k :
  is_Some
    (fold_left
       (fun requestCommits vote =>
          <[key_of (Address (VoteInfo_Validator vote)) := vote]> requestCommits)
       votes m !! k) <->
  is_Some (m !! k) \/
  Exists (fun vote => key_of (Address (VoteInfo_Validator vote)) = k) votes.
Proof.
  revert m. induction votes as [|v rest IH]; intros m; simpl.
  - rewrite Exists_nil. tauto.
  - rewrite IH, Exists_cons, lookup_insert_is_Some.
    destruct (decide (key_of (Address (VoteInfo_Validator v)) = k)); tauto.
Qed.

Lemma buildRequestCommits_is_Some votes address :
  is_Some (buildRequestCommits votes !! key_of address) <->
  Exists (fun vote => Address (VoteInfo_Validator vote) = address) votes.
Proof.
  unfold buildRequestCommits. rewrite fold_insert_lookup_is_Some.
  rewrite lookup_empty. split.
  - intros [[? [=]]|H]. eapply Exists_impl; [exact H|].
    simpl. intros v Hk. by apply key_of_inj.
  - intros H. right. eapply Exists_impl; [exact H|].
    simpl. by intros v ->.
Qed.

Lemma inLastCommit_lookup req vote :
  inLastCommit req vote <->
  is_Some (buildRequestCommits (CommitInfo_Votes (ProposedLastCommit req))
             !! key_of (Address (Ext_Validator vote))).
Proof. symmetry. apply buildRequestCommits_is_Some. Qed.

(** ** The process path against the prepare path *)

Lemma processBody_agrees req requestCommits height vote s :
  is_Some (requestCommits !! key_of (Address (Ext_Validator vote))) ->
  agree (processBody req requestCommits vote s) (prepareBody height vote s).
Proof.
  intros [reqVote Hfound].
  rewrite (processBody_found _ _ _ _ _ Hfound), prepareBody_run.
  destruct (Decode (VoteExtension vote)) as [e|voteExt]; [by repeat split|].
  destruct (ValidateOracleVoteExtension s voteExt currencyPairStrategy)
    as [[e|] s']; by repeat split.
Qed.

Lemma forVotes_agrees req requestCommits height votes :
  Forall (fun vote =>
            is_Some (requestCommits !! key_of (Address (Ext_Validator vote))))
         votes ->
  forall s,
    agree (forVotes (processBody req requestCommits) votes s)
          (forVotes (prepareBody height) votes s).
Proof.
  induction 1 as [|vote rest Hvote _ IH]; intros s; [by repeat split|].
  rewrite !forVotes_cons.
  destruct (processBody_agrees req requestCommits height vote s Hvote)
    as (Hr & Hs & Hc).
  destruct (processBody req requestCommits vote s) as [[r1 s1] ev1].
  destruct (prepareBody height vote s) as [[r2 s2] ev2].
  unfold result, final, events in Hr, Hs, Hc; simpl in Hr, Hs, Hc. subst r2 s2.
  destruct r1 as [[e|]|].
  - repeat split. unfold events, collaboratorCalls in *; simpl.
    by rewrite !omap_app, Hc.
  - destruct (IH s1) as (Hr' & Hs' & Hc').
    destruct (forVotes (processBody req requestCommits) rest s1)
      as [[r3 s3] ev3].
    destruct (forVotes (prepareBody height) rest s1) as [[r4 s4] ev4].
    unfold agree, result, final, events, collaboratorCalls in *; simpl in *.
    by rewrite !omap_app, Hc, Hc', Hr', Hs'.
  - by repeat split.
Qed.

Lemma Process_agrees_with_Prepare req eci height s :
  Forall (inLastCommit req) (Votes eci) ->
  agree (ValidateExtendedCommitInfoProcess (Some req) eci s)
        (ValidateExtendedCommitInfoPrepare height eci s).
Proof.
  intros Hall. rewrite Process_run, Prepare_run.
  destruct (validateVoteExtensionsFn s eci) as [[e|] s']; [by repeat split|].
  set (rc := buildRequestCommits _).
  destruct (forVotes_agrees req rc height (Votes eci)) with (s := s')
    as (Hr & Hs & Hc).
  { eapply Forall_impl; [exact Hall|]. intros v. apply inLastCommit_lookup. }
  destruct (forVotes (processBody req rc) (Votes eci) s') as [[r1 s1] ev1].
  destruct (forVotes (prepareBody height) (Votes eci) s') as [[r2 s2] ev2].
  unfold agree, result, final, events in *; simpl in *.
  by rewrite Hr, Hs, Hc.
Qed.

Lemma forVotes_process_nil_found req requestCommits votes s :
  result (forVotes (processBody req requestCommits) votes s) = Returned None ->
  Forall (fun vote =>
            is_Some (requestCommits !! key_of (Address (Ext_Validator vote))))
         votes.
Proof.
  revert s. induction votes as [|vote rest IH]; intros s; [constructor|].
  rewrite forVotes_cons.
  destruct (requestCommits !! key_of (Address (Ext_Validator vote)))
    as [reqVote|] eqn:Hlook.
  - destruct (processBody req requestCommits vote s) as [[[[e|]|] s1] ev1];
      [discriminate| |discriminate].
    specialize (IH s1).
    destruct (forVotes (processBody req requestCommits) rest s1)
      as [[r2 s2] ev2].
    intros Hnil. constructor; [by rewrite Hlook|]. by apply IH.
  - by rewrite (processBody_missing _ _ _ _ Hlook).
Qed.

Lemma Process_nil_all_in_last_commit req eci s :
  result (ValidateExtendedCommitInfoProcess (Some req) eci s) = Returned None ->
  Forall (inLastCommit req) (Votes eci).
Proof.
  rewrite Process_run.
  destruct (validateVoteExtensionsFn s eci) as [[e|] s']; [discriminate|].
  set (rc := buildRequestCommits _).
  pose proof (forVotes_process_nil_found req rc (Votes eci) s') as H.
  destruct (forVotes (processBody req rc) (Votes eci) s') as [[r s2] ev2].
  intros Hnil. eapply Forall_impl; [exact (H Hnil)|].
  intros v. apply inLastCommit_lookup.
Qed.

(** X1. When every vote of the extended commit info comes from a validator
    with a vote in the request's last commit, the process path does what the
    prepare path does at any height: the same result, the same consensus
    state afterwards, and the same calls to the collaborators in the same
    order. The two differ in their log lines only. *)
Theorem Process_is_Prepare_when_all_in_last_commit req eci height s :
  Forall (inLastCommit req) (Votes eci) ->
  result (ValidateExtendedCommitInfoProcess (Some req) eci s)
    = result (ValidateExtendedCommitInfoPrepare height eci s) /\
  final (ValidateExtendedCommitInfoProcess (Some req) eci s)
    = final (ValidateExtendedCommitInfoPrepare height eci s) /\
  collaboratorCalls (events (ValidateExtendedCommitInfoProcess (Some req) eci s))
    = collaboratorCalls (events (ValidateExtendedCommitInfoPrepare height eci s)).
Proof. apply Process_agrees_with_Prepare. Qed.

(** X2. The process path is the stricter one: what it accepts, the prepare
    path accepts too, at any height, and every vote it accepted comes from a
    validator with a vote in the request's last commit. *)
Theorem Process_accepts_only_what_Prepare_accepts req eci s :
  result (ValidateExtendedCommitInfoProcess (Some req) eci s) = Returned None ->
  Forall (inLastCommit req) (Votes eci) /\
  forall height,
    result (ValidateExtendedCommitInfoPrepare height eci s) = Returned None.
Proof.
  intros Hnil. pose proof (Process_nil_all_in_last_commit req eci s Hnil) as Hall.
  split; [exact Hall|]. intros height.
  destruct (Process_agrees_with_Prepare req eci height s Hall) as [Hr _].
  by rewrite <- Hr.
Qed.

(** ** The payloads the codec sees *)

Lemma prepareBody_decodesOwn height :
  decodesOwn (fun _ => True) (prepareBody height).
Proof.
  intros vote s. left. rewrite prepareBody_run.
  destruct (Decode (VoteExtension vote)) as [e|voteExt]; [done|].
  by destruct (ValidateOracleVoteExtension s voteExt currencyPairStrategy)
    as [[e|] s'].
Qed.

Lemma processBody_decodesOwn req requestCommits :
  decodesOwn
    (fun vote =>
       is_Some (requestCommits !! key_of (Address (Ext_Validator vote))))
    (processBody req requestCommits).
Proof.
  intros vote s.
  destruct (requestCommits !! key_of (Address (Ext_Validator vote)))
    as [reqVote|] eqn:Hlook.
  - left. rewrite (processBody_found _ _ _ _ _ Hlook).
    destruct (Decode (VoteExtension vote)) as [e|voteExt]; [done|].
    by destruct (ValidateOracleVoteExtension s voteExt currencyPairStrategy)
      as [[e|] s'].
  - right. by rewrite (processBody_missing _ _ _ _ Hlook).
Qed.

(** The loop hands the payloads of an initial stretch of the votes to the
    codec, one call per vote and in order, and all of them when it falls
    through. *)
Lemma forVotes_decodeCalls Q body votes :
  decodesOwn Q body ->
  forall s,
    exists examined rest,
      votes = examined ++ rest /\
      decodeCalls (events (forVotes body votes s)) = VoteExtension <$> examined /\
      Forall Q examined /\
      (result (forVotes body votes s) = Returned None -> rest = []).
Proof.
  intros Hbody. induction votes as [|vote votes IH]; intros s.
  - exists [], []. by repeat split.
  - rewrite forVotes_cons.
    destruct (Hbody vote s) as [[Hd HQ]|[Hd Hr]].
    + destruct (body vote s) as [[[[e|]|] s1] ev1];
        unfold events, result in *; simpl in *.
      * exists [vote], votes. rewrite app_nil_r.
        repeat split; [done|by constructor|discriminate].
      * destruct (IH s1) as (examined & rest & -> & Hcalls & HQs & Hnil).
        destruct (forVotes body (examined ++ rest) s1) as [[r2 s2] ev2];
          simpl in *.
        exists (vote :: examined), rest.
        repeat split; [|by constructor|done].
        unfold decodeCalls in *. by rewrite omap_app, Hd, Hcalls.
      * exists [vote], votes. repeat split; [done|by constructor|discriminate].
    + destruct (body vote s) as [[[[e|]|] s1] ev1];
        unfold events, result in *; simpl in *; [|done|].
      * exists [], (vote :: votes). rewrite app_nil_r.
        repeat split; [done|constructor|discriminate].
      * exists [], (vote :: votes). repeat split; [done|constructor|discriminate].
Qed.

(** X3. The prepare path hands the votes' extension bytes to the codec in
    the order of the votes, each at most once and without skipping a vote:
    the codec sees the payloads of an initial stretch of the votes, and of
    all the votes when the call returns nil. *)
Theorem Prepare_decodes_votes_in_order height eci s :
  exists examined rest,
    Votes eci = examined ++ rest /\
    decodeCalls (events (ValidateExtendedCommitInfoPrepare height eci s))
      = VoteExtension <$> examined /\
    (result (ValidateExtendedCommitInfoPrepare height eci s) = Returned None ->
     rest = []).
Proof.
  rewrite Prepare_run.
  destruct (validateVoteExtensionsFn s eci) as [[e|] s'].
  - exists [], (Votes eci). by repeat split.
  - destruct (forVotes_decodeCalls _ _ (Votes eci)
                (prepareBody_decodesOwn height) s')
      as (examined & rest & Hvotes & Hcalls & _ & Hnil).
    destruct (forVotes (prepareBody height) (Votes eci) s') as [[r s2] ev2].
    by exists examined, rest.
Qed.

(** X4. The process path never hands the codec the extension bytes of a
    validator without a vote in the request's last commit: the codec sees the
    payloads of an initial stretch of the votes, in order, every one of them
    from a validator in the last commit, and of all the votes when the call
    returns nil. *)
Theorem Process_decodes_only_votes_in_last_commit req eci s :
  exists examined rest,
    Votes eci = examined ++ rest /\
    decodeCalls (events (ValidateExtendedCommitInfoProcess (Some req) eci s))
      = VoteExtension <$> examined /\
    Forall (inLastCommit req) examined /\
    (result (ValidateExtendedCommitInfoProcess (Some req) eci s) = Returned None ->
     rest = []).
Proof.
  rewrite Process_run.
  destruct (validateVoteExtensionsFn s eci) as [[e|] s'].
  - exists [], (Votes eci). by repeat split.
  - set (rc := buildRequestCommits _).
    destruct (forVotes_decodeCalls _ _ (Votes eci)
                (processBody_decodesOwn req rc) s')
      as (examined & rest & Hvotes & Hcalls & HQ & Hnil).
    destruct (forVotes (processBody req rc) (Votes eci) s') as [[r s2] ev2].
    exists examined, rest. repeat split; [done|done| |done].
    eapply Forall_impl; [exact HQ|]. intros v. apply inLastCommit_lookup.
Qed.

(** ** What the process path reads of the request *)

Lemma forVotes_agree body1 body2 votes :
  Forall (fun vote => forall s, agree (body1 vote s) (body2 vote s)) votes ->
  forall s, agree (forVotes body1 votes s) (forVotes body2 votes s).
Proof.
  induction 1 as [|vote rest Hvote _ IH]; intros s; [by repeat split|].
  rewrite !forVotes_cons. destruct (Hvote s) as (Hr & Hs & Hc).
  destruct (body1 vote s) as [[r1 s1] ev1].
  destruct (body2 vote s) as [[r2 s2] ev2].
  unfold result, final, events in Hr, Hs, Hc; simpl in Hr, Hs, Hc. subst r2 s2.
  destruct r1 as [[e|]|].
  - repeat split. unfold events, collaboratorCalls in *; simpl.
    by rewrite !omap_app, Hc.
  - destruct (IH s1) as (Hr' & Hs' & Hc').
    destruct (forVotes body1 rest s1) as [[r3 s3] ev3].
    destruct (forVotes body2 rest s1) as [[r4 s4] ev4].
    unfold agree, result, final, events, collaboratorCalls in *; simpl in *.
    by rewrite !omap_app, Hc, Hc', Hr', Hs'.
  - by repeat split.
Qed.

Lemma forVotes_same body1 body2 votes :
  Forall (fun vote => forall s, body1 vote s = body2 vote s) votes ->
  forall s, forVotes body1 votes s = forVotes body2 votes s.
Proof.
  induction 1 as [|vote rest Hvote _ IH]; intros s; [reflexivity|].
  rewrite !forVotes_cons, Hvote.
  destruct (body2 vote s) as [[[[e|]|] s1] ev1]; try reflexivity.
  by rewrite IH.
Qed.

Lemma processBody_reads_presence req1 req2 rc1 rc2 vote s :
  (is_Some (rc1 !! key_of (Address (Ext_Validator vote))) <->
   is_Some (rc2 !! key_of (Address (Ext_Validator vote)))) ->
  agree (processBody req1 rc1 vote s) (processBody req2 rc2 vote s) /\
  (Height req1 = Height req2 ->
   processBody req1 rc1 vote s = processBody req2 rc2 vote s).
Proof.
  intros Hiff.
  destruct (rc1 !! key_of (Address (Ext_Validator vote))) as [v1|] eqn:H1;
    destruct (rc2 !! key_of (Address (Ext_Validator vote))) as [v2|] eqn:H2.
  - rewrite (processBody_found _ _ _ _ _ H1), (processBody_found _ _ _ _ _ H2).
    destruct (Decode (VoteExtension vote)) as [e|voteExt]; [by repeat split|].
    destruct (ValidateOracleVoteExtension s voteExt currencyPairStrategy)
      as [[e|] s']; (split; [by repeat split|intros Hh; by rewrite ?Hh]).
  - destruct Hiff as [Hiff _]. by destruct Hiff as [? [=]].
  - destruct Hiff as [_ Hiff]. by destruct Hiff as [? [=]].
  - rewrite (processBody_missing _ _ _ _ H1), (processBody_missing _ _ _ _ H2).
    split; [by repeat split|intros Hh; by rewrite ?Hh].
Qed.

(** X5. Of the request, the process path reads the height, for its log
    lines, and for each vote whether its validator has a vote in the last
    commit, and nothing else: the votes of the last commit are never
    compared with the votes of the extended commit info beyond their
    address. Two requests whose last commits hold the validators of the
    votes alike give the same result, the same state afterwards and the
    same collaborator calls, and the very same run when their heights are
    equal. *)
Theorem Process_reads_only_addresses_of_last_commit req1 req2 eci s :
  Forall (fun vote => inLastCommit req1 vote <-> inLastCommit req2 vote)
         (Votes eci) ->
  agree (ValidateExtendedCommitInfoProcess (Some req1) eci s)
        (ValidateExtendedCommitInfoProcess (Some req2) eci s) /\
  (Height req1 = Height req2 ->
   ValidateExtendedCommitInfoProcess (Some req1) eci s
   = ValidateExtendedCommitInfoProcess (Some req2) eci s).
Proof.
  intros Hsame. rewrite !Process_run.
  set (rc1 := buildRequestCommits (CommitInfo_Votes (ProposedLastCommit req1))).
  set (rc2 := buildRequestCommits (CommitInfo_Votes (ProposedLastCommit req2))).
  assert (Forall (fun vote =>
                    is_Some (rc1 !! key_of (Address (Ext_Validator vote))) <->
                    is_Some (rc2 !! key_of (Address (Ext_Validator vote))))
                 (Votes eci)) as Hlook.
  { eapply Forall_impl; [exact Hsame|]. simpl. intros v Hv.
    unfold rc1, rc2. by rewrite <- !inLastCommit_lookup. }
  destruct (validateVoteExtensionsFn s eci) as [[e|] s'].
  - split; [by repeat split|intros Hh; by rewrite ?Hh].
  - split.
    + destruct (forVotes_agree (processBody req1 rc1) (processBody req2 rc2)
                  (Votes eci)) with (s := s') as (Hr & Hs & Hc).
      { eapply Forall_impl; [exact Hlook|]. intros v Hv s0.
        by apply processBody_reads_presence. }
      destruct (forVotes (processBody req1 rc1) (Votes eci) s')
        as [[r1 s1] ev1].
      destruct (forVotes (processBody req2 rc2) (Votes eci) s')
        as [[r2 s2] ev2].
      unfold agree, result, final, events in *; simpl in *.
      by rewrite Hr, Hs, Hc.
    + intros Hheight.
      rewrite (forVotes_same (processBody req1 rc1) (processBody req2 rc2));
        [done|].
      eapply Forall_impl; [exact Hlook|]. intros v Hv s0.
      by apply processBody_reads_presence.
Qed.

(** ** The collaborator calls of a run *)

Lemma perVoteCalls_app l1 l2 :
  perVoteCalls (l1 ++ l2) = perVoteCalls l1 ++ perVoteCalls l2.
Proof. apply flat_map_app. Qed.

(** The calls of a loop body are the ones that go with the payloads it
    handed to the codec. *)
Definition callsFollowDecodes {A} (run : outcome A * State * list event)
  : Prop :=
  collaboratorCalls (events run) = perVoteCalls (decodeCalls (events run)).

Lemma prepareBody_callsFollowDecodes height vote s :
  callsFollowDecodes (prepareBody height vote s).
Proof.
  unfold callsFollowDecodes. rewrite prepareBody_run.
  destruct (Decode (VoteExtension vote)) as [e|voteExt] eqn:Hd.
  - unfold events; simpl. by rewrite Hd.
  - destruct (ValidateOracleVoteExtension s voteExt currencyPairStrategy)
      as [[e|] s']; unfold events; simpl; by rewrite Hd.
Qed.

Lemma processBody_callsFollowDecodes req requestCommits vote s :
  callsFollowDecodes (processBody req requestCommits vote s).
Proof.
  unfold callsFollowDecodes.
  destruct (requestCommits !! key_of (Address (Ext_Validator vote)))
    as [reqVote|] eqn:Hlook.
  - rewrite (processBody_found _ _ _ _ _ Hlook).
    destruct (Decode (VoteExtension vote)) as [e|voteExt] eqn:Hd.
    + unfold events; simpl. by rewrite Hd.
    + destruct (ValidateOracleVoteExtension s voteExt currencyPairStrategy)
        as [[e|] s']; unfold events; simpl; by rewrite Hd.
  - by rewrite (processBody_missing _ _ _ _ Hlook).
Qed.

Lemma forVotes_callsFollowDecodes body votes :
  (forall vote s, callsFollowDecodes (body vote s)) ->
  forall s, callsFollowDecodes (forVotes body votes s).
Proof.
  intros Hbody. induction votes as [|vote rest IH]; intros s; [reflexivity|].
  rewrite forVotes_cons. specialize (Hbody vote s).
  destruct (body vote s) as [[[[e|]|] s1] ev1];
    unfold callsFollowDecodes, events in *; simpl in *.
  - by rewrite app_nil_r.
  - specialize (IH s1). destruct (forVotes body rest s1) as [[r2 s2] ev2].
    simpl in *. unfold collaboratorCalls, decodeCalls in *.
    rewrite !omap_app, perVoteCalls_app. by rewrite Hbody, IH.
  - done.
Qed.

(** X6. The order in which a call consults its collaborators: the
    supermajority predicate first and once, on the whole extended commit
    info; after it only the codec and the vote validator, and the vote
    validator only ever on what the codec has just made of a payload, right
    after that payload was decoded. A payload the codec rejects is followed
    by no validation. This holds on both paths and for a nil request too. *)
Theorem collaborators_are_called_in_protocol_order eci s :
  (forall height,
      collaboratorCalls (events (ValidateExtendedCommitInfoPrepare height eci s))
      = CallValidateVoteExtensions eci
        :: perVoteCalls
             (decodeCalls (events (ValidateExtendedCommitInfoPrepare height eci s)))) /\
  (forall req,
      collaboratorCalls (events (ValidateExtendedCommitInfoProcess req eci s))
      = CallValidateVoteExtensions eci
        :: perVoteCalls
             (decodeCalls (events (ValidateExtendedCommitInfoProcess req eci s)))).
Proof.
  split.
  - intros height. rewrite Prepare_run.
    destruct (validateVoteExtensionsFn s eci) as [[e|] s']; [reflexivity|].
    pose proof (forVotes_callsFollowDecodes (prepareBody height) (Votes eci)
                  (prepareBody_callsFollowDecodes height) s') as H.
    destruct (forVotes (prepareBody height) (Votes eci) s') as [[r s2] ev2].
    unfold callsFollowDecodes, events in *; simpl in *. by rewrite H.
  - intros [req|]; [|by rewrite Process_nil_request].
    rewrite Process_run.
    destruct (validateVoteExtensionsFn s eci) as [[e|] s']; [reflexivity|].
    set (rc := buildRequestCommits _).
    pose proof (forVotes_callsFollowDecodes (processBody req rc) (Votes eci)
                  (processBody_callsFollowDecodes req rc) s') as H.
    destruct (forVotes (processBody req rc) (Votes eci) s') as [[r s2] ev2].
    unfold callsFollowDecodes, events in *; simpl in *. by rewrite H.
Qed.

(** ** The log of a run *)

Lemma logDiscipline_app_nil (r : outcome (option error)) s1 ev1 :
  logDiscipline (r, s1, ev1) -> logDiscipline (r, s1, ev1 ++ []).
Proof. by rewrite app_nil_r. Qed.

(** Events without a log line in front of a run that keeps the discipline. *)
Lemma logDiscipline_after (r : outcome (option error)) s2 ev1 ev2 :
  logLines ev1 = [] ->
  logDiscipline (r, s2, ev2) ->
  logDiscipline (r, s2, ev1 ++ ev2).
Proof.
  intros Hquiet. unfold logDiscipline, result, events, logLines in *; simpl.
  rewrite omap_app, Hquiet. simpl.
  destruct r as [[e|]|]; [|done|done].
  intros [(Hlogs & bz & e0 & Hlast & Hd & He)|(msg & kv & Hlogs & Hlast & He)].
  - left. split; [done|]. exists bz, e0. by rewrite last_app, Hlast.
  - right. exists msg, kv. by rewrite last_app, Hlast.
Qed.

Lemma prepareBody_logDiscipline height vote s :
  logDiscipline (prepareBody height vote s).
Proof.
  rewrite prepareBody_run.
  destruct (Decode (VoteExtension vote)) as [e|voteExt] eqn:Hd.
  - left. split; [done|]. by exists (VoteExtension vote), e.
  - destruct (ValidateOracleVoteExtension s voteExt currencyPairStrategy)
      as [[e|] s']; [|done].
    right. eexists _, _. split; [reflexivity|]. split; [reflexivity|].
    left. apply list_elem_of_In. simpl.
    repeat (first [left; reflexivity|right]).
Qed.

Lemma processBody_logDiscipline req requestCommits vote s :
  logDiscipline (processBody req requestCommits vote s).
Proof.
  destruct (requestCommits !! key_of (Address (Ext_Validator vote)))
    as [reqVote|] eqn:Hlook.
  - rewrite (processBody_found _ _ _ _ _ Hlook).
    destruct (Decode (VoteExtension vote)) as [e|voteExt] eqn:Hd.
    + left. split; [done|]. by exists (VoteExtension vote), e.
    + destruct (ValidateOracleVoteExtension s voteExt currencyPairStrategy)
        as [[e|] s']; [|done].
      right. eexists _, _. split; [reflexivity|]. split; [reflexivity|].
      left. apply list_elem_of_In. simpl.
    repeat (first [left; reflexivity|right]).
  - rewrite (processBody_missing _ _ _ _ Hlook).
    right. eexists _, _. split; [reflexivity|]. split; [reflexivity|].
    by right.
Qed.

Lemma forVotes_logDiscipline body votes :
  (forall vote s, logDiscipline (body vote s)) ->
  forall s, logDiscipline (forVotes body votes s).
Proof.
  intros Hbody. induction votes as [|vote rest IH]; intros s; [done|].
  rewrite forVotes_cons. specialize (Hbody vote s).
  destruct (body vote s) as [[[[e|]|] s1] ev1].
  - by apply logDiscipline_app_nil.
  - specialize (IH s1). destruct (forVotes body rest s1) as [[r2 s2] ev2].
    by apply logDiscipline_after.
  - done.
Qed.

(** X7. How a call accounts for itself in the log, on both paths. A call
    that returns nil writes no log line. A call that returns an error writes
    exactly one line, as the last thing it does, and the line carries the
    returned error under the key [err] (or, for a validator missing from the
    last commit, has the returned error's text as its message), with one
    exception: a decode failure is returned without any log line. A call
    that panics on a nil request has written nothing. *)
Theorem rejections_are_logged_once_except_decode_failures eci s :
  (forall height,
      logDiscipline (ValidateExtendedCommitInfoPrepare height eci s)) /\
  (forall req,
      logDiscipline (ValidateExtendedCommitInfoProcess req eci s)).
Proof.
  split.
  - intros height. rewrite Prepare_run.
    destruct (validateVoteExtensionsFn s eci) as [[e|] s'].
    + right. eexists _, _. split; [reflexivity|]. split; [reflexivity|].
      left. apply list_elem_of_In. simpl.
    repeat (first [left; reflexivity|right]).
    + pose proof (forVotes_logDiscipline (prepareBody height) (Votes eci)
                    (prepareBody_logDiscipline height) s') as H.
      destruct (forVotes (prepareBody height) (Votes eci) s') as [[r s2] ev2].
      by apply (logDiscipline_after r s2 [CallValidateVoteExtensions eci] ev2).
  - intros [req|]; [|by rewrite Process_nil_request].
    rewrite Process_run.
    destruct (validateVoteExtensionsFn s eci) as [[e|] s'].
    + right. eexists _, _. split; [reflexivity|]. split; [reflexivity|].
      left. apply list_elem_of_In. simpl.
    repeat (first [left; reflexivity|right]).
    + set (rc := buildRequestCommits _).
      pose proof (forVotes_logDiscipline (processBody req rc) (Votes eci)
                    (processBody_logDiscipline req rc) s') as H.
      destruct (forVotes (processBody req rc) (Votes eci) s') as [[r s2] ev2].
      by apply (logDiscipline_after r s2 [CallValidateVoteExtensions eci] ev2).
Qed.

End Handler.

End Proposals.

(** * Test doubles for the validator's collaborators, and the runs the
    theorems above are instantiated at *)

Module ProposalsExamples.
Import Proposals.
Local Open Scope Z_scope.

(** A supermajority predicate in the style of the SDK's: a commit without
    votes carries no voting power and is refused. *)
Definition totalPower (votes : list ExtendedVoteInfo) : Z :=
  foldr (fun vote acc => Power (Ext_Validator vote) + acc) 0 votes.

Definition signedPower (votes : list ExtendedVoteInfo) : Z :=
  foldr (fun vote acc =>
           if Ext_BlockIdFlag vote =? 2
           then Power (Ext_Validator vote) + acc else acc) 0 votes.

Definition fakeValidateVoteExtensions (s : Z) (eci : ExtendedCommitInfo)
  : option string * Z :=
  if totalPower (Votes eci) <=? 0
  then (Some "total voting power must be positive"%string, s)
  else if signedPower (Votes eci) <? totalPower (Votes eci) * 2 / 3 + 1
  then (Some "insufficient cumulative voting power"%string, s)
  else (None, s).

(** A codec that refuses the empty payload and otherwise returns the bytes. *)
Definition fakeDecode (bz : list byte) : string + list byte :=
  match bz with
  | [] => inl "empty vote extension"%string
  | _ :: _ => inr bz
  end.

(** A vote validator that accepts payloads of at most two bytes. *)
Definition fakeValidateOracleVoteExtension (s : Z) (voteExt : list byte)
    (strategy : unit) : option string * Z :=
  if (length voteExt <=? 2)%nat then (None, s)
  else (Some "price bytes are too long"%string, s).

Definition fakePrepare :=
  ValidateExtendedCommitInfoPrepare
    fakeValidateVoteExtensions fakeDecode fakeValidateOracleVoteExtension tt.

Definition fakeProcess :=
  ValidateExtendedCommitInfoProcess
    fakeValidateVoteExtensions fakeDecode fakeValidateOracleVoteExtension tt.

Definition validatorA : Validator := {| Address := [x0a]; Power := 10 |}.
Definition validatorB : Validator := {| Address := [x0b]; Power := 10 |}.
Definition validatorC : Validator := {| Address := [x0c]; Power := 10 |}.

Definition extVote (v : Validator) (bz : list byte) : ExtendedVoteInfo :=
  {| Ext_Validator := v; VoteExtension := bz;
     ExtensionSignature := []; Ext_BlockIdFlag := 2 |}.

Definition lastCommitAB : CommitInfo :=
  {| CommitInfo_Round := 0;
     CommitInfo_Votes :=
       [ {| VoteInfo_Validator := validatorA; VoteInfo_BlockIdFlag := 2 |};
         {| VoteInfo_Validator := validatorB; VoteInfo_BlockIdFlag := 2 |} ] |}.

Definition requestAB : RequestProcessProposal :=
  {| Txs := []; ProposedLastCommit := lastCommitAB; Height := 7 |}.

Definition noVotes : ExtendedCommitInfo := {| Round := 0; Votes := [] |}.

(** Only [validatorA] signed: a third of the voting power. *)
Definition votesMinority : ExtendedCommitInfo :=
  {| Round := 0;
     Votes := [extVote validatorA [x01];
               {| Ext_Validator := validatorB; VoteExtension := [];
                  ExtensionSignature := []; Ext_BlockIdFlag := 1 |};
               {| Ext_Validator := validatorC; VoteExtension := [];
                  ExtensionSignature := []; Ext_BlockIdFlag := 1 |}] |}.

Definition votesAB : ExtendedCommitInfo :=
  {| Round := 0;
     Votes := [extVote validatorA [x01]; extVote validatorB [x02; x03]] |}.

(** [validatorC] did not sign the last commit of [requestAB]. *)
Definition votesAC : ExtendedCommitInfo :=
  {| Round := 0;
     Votes := [extVote validatorA [x01]; extVote validatorC [x02]] |}.

(** The second vote is too long for the vote validator, the third is refused
    by the codec. *)
Definition votesBad : ExtendedCommitInfo :=
  {| Round := 0;
     Votes := [extVote validatorA [x01];
               extVote validatorB [x01; x02; x03];
               extVote validatorA []] |}.

Definition votesUndecodable : ExtendedCommitInfo :=
  {| Round := 0;
     Votes := [extVote validatorA [x01];
               extVote validatorB [];
               extVote validatorA [x01; x02; x03]] |}.

Example prepare_accepts_votesAB :
  result (fakePrepare 7 votesAB 0) = Returned None.
Proof. reflexivity. Qed.

Example process_accepts_votesAB :
  result (fakeProcess (Some requestAB) votesAB 0) = Returned None.
Proof. vm_compute. reflexivity. Qed.

Example prepare_stops_at_failing_decode :
  fakePrepare 7 votesUndecodable 0 =
  (Returned (Some (Collab "empty vote extension"%string)), 0%Z,
   [CallValidateVoteExtensions votesUndecodable;
    CallDecode [x01];
    CallValidateOracleVoteExtension [x01];
    CallDecode []]).
Proof. reflexivity. Qed.

Example process_nil_request_panics :
  result (fakeProcess None votesAB 0) = Panicked.
Proof. reflexivity. Qed.

Lemma fakeValidateVoteExtensions_readOnly :
  supermajorityReadOnly fakeValidateVoteExtensions.
Proof.
  intros s eci. unfold fakeValidateVoteExtensions.
  destruct (_ <=? _); [reflexivity|]. destruct (_ <? _); reflexivity.
Qed.

Lemma fakeValidateOracleVoteExtension_readOnly :
  voteValidatorReadOnly fakeValidateOracleVoteExtension tt.
Proof.
  intros s voteExt. unfold fakeValidateOracleVoteExtension.
  destruct (_ <=? _)%nat; reflexivity.
Qed.

(** The supermajority theorem at [votesMinority]: one validator out of three
    signed. *)
Lemma supermajority_failure_witness :
  fakeValidateVoteExtensions 0 votesMinority
    = (Some "insufficient cumulative voting power"%string, 0) /\
  (result (fakePrepare 7 votesMinority 0)
     = Returned (Some (Collab "insufficient cumulative voting power"%string)) /\
   decodeCalls (events (fakePrepare 7 votesMinority 0)) = []) /\
  (result (fakeProcess (Some requestAB) votesMinority 0)
     = Returned (Some (Collab "insufficient cumulative voting power"%string)) /\
   decodeCalls (events (fakeProcess (Some requestAB) votesMinority 0)) = []).
Proof.
  assert (fakeValidateVoteExtensions 0 votesMinority
          = (Some "insufficient cumulative voting power"%string, 0)) as Hfail
    by reflexivity.
  split; [exact Hfail|].
  destruct (supermajority_failure_returns_error_before_decoding
              fakeValidateVoteExtensions fakeDecode
              fakeValidateOracleVoteExtension tt
              votesMinority 0 _ 0 Hfail) as [Hprepare Hprocess].
  split; [exact (Hprepare 7)|exact (Hprocess requestAB)].
Defined.

Example process_stops_at_failing_decode :
  fakeProcess (Some requestAB) votesUndecodable 0 =
  (Returned (Some (Collab "empty vote extension"%string)), 0%Z,
   [CallValidateVoteExtensions votesUndecodable;
    CallDecode [x01];
    CallValidateOracleVoteExtension [x01];
    CallDecode []]).
Proof. vm_compute. reflexivity. Qed.

(** The decode theorem at [votesUndecodable], whose second vote the codec
    refuses: both paths hand the empty payload to the codec, return its error
    and stop there, and the third vote is never looked at. *)
Lemma decode_failure_witness :
  (fakeDecode [] = inl "empty vote extension"%string /\
   CallDecode [] ∈ events (fakePrepare 7 votesUndecodable 0) /\
   CallDecode [] ∈ events (fakeProcess (Some requestAB) votesUndecodable 0) /\
   extVote validatorB [] ∈ Votes votesUndecodable) /\
  (result (fakePrepare 7 votesUndecodable 0)
     = Returned (Some (Collab "empty vote extension"%string)) /\
   (exists pre,
       events (fakePrepare 7 votesUndecodable 0) = pre ++ [CallDecode []]) /\
   (exists e',
       result (fakePrepare 7 votesUndecodable 0) = Returned (Some e'))) /\
  (result (fakeProcess (Some requestAB) votesUndecodable 0)
     = Returned (Some (Collab "empty vote extension"%string)) /\
   (exists pre,
       events (fakeProcess (Some requestAB) votesUndecodable 0)
       = pre ++ [CallDecode []]) /\
   (exists e',
       result (fakeProcess (Some requestAB) votesUndecodable 0)
       = Returned (Some e'))).
Proof.
  assert (fakeDecode [] = inl "empty vote extension"%string) as Hdec
    by reflexivity.
  assert (CallDecode [] ∈ events (fakePrepare 7 votesUndecodable 0)) as Hin1.
  { apply list_elem_of_In. vm_compute. tauto. }
  assert (CallDecode [] ∈ events (fakeProcess (Some requestAB) votesUndecodable 0))
    as Hin2.
  { apply list_elem_of_In. vm_compute. tauto. }
  assert (extVote validatorB [] ∈ Votes votesUndecodable) as Hvote.
  { simpl. apply list_elem_of_further, list_elem_of_here. }
  split; [by repeat split|].
  destruct (decode_failure_invalidates_batch
              fakeValidateVoteExtensions fakeDecode
              fakeValidateOracleVoteExtension tt votesUndecodable 0)
    as [Hprepare Hprocess].
  destruct (Hprepare 7) as [Habort1 Hnil1].
  destruct (Hprocess requestAB) as [Habort2 Hnil2].
  destruct (Habort1 [] _ Hin1 Hdec) as [Hr1 Hpre1].
  destruct (Habort2 [] _ Hin2 Hdec) as [Hr2 Hpre2].
  split; [split; [exact Hr1|split; [exact Hpre1|]]
         |split; [exact Hr2|split; [exact Hpre2|]]].
  - exact (Hnil1 _ _ Hvote Hdec).
  - exact (Hnil2 _ _ Hvote Hdec).
Defined.

(** The cross-reference theorem at [votesAC]: [validatorC]'s vote decodes and
    validates and the supermajority holds, yet it is not in the last commit
    of [requestAB]. *)
Lemma process_missing_vote_witness :
  (extVote validatorC [x02] ∈ Votes votesAC /\
   Forall (fun reqVote =>
             Address (VoteInfo_Validator reqVote)
             <> Address (Ext_Validator (extVote validatorC [x02])))
          (CommitInfo_Votes (ProposedLastCommit requestAB))) /\
  (fakeValidateVoteExtensions 0 votesAC).1 = None /\
  voteError fakeDecode fakeValidateOracleVoteExtension tt 0
    (extVote validatorC [x02]) = None /\
  exists e, result (fakeProcess (Some requestAB) votesAC 0) = Returned (Some e).
Proof.
  assert (extVote validatorC [x02] ∈ Votes votesAC) as Hin.
  { simpl. apply list_elem_of_further, list_elem_of_here. }
  assert (Forall (fun reqVote =>
             Address (VoteInfo_Validator reqVote)
             <> Address (Ext_Validator (extVote validatorC [x02])))
          (CommitInfo_Votes (ProposedLastCommit requestAB))) as Hmissing.
  { simpl. repeat constructor; discriminate. }
  split; [by split|]. split; [reflexivity|]. split; [reflexivity|].
  exact (process_rejects_vote_missing_from_last_commit
           fakeValidateVoteExtensions fakeDecode
           fakeValidateOracleVoteExtension tt
           requestAB votesAC _ 0 Hin Hmissing).
Defined.

(** The prepare theorem at [votesAB], which is accepted, and at [votesBad],
    whose second vote is the first one rejected. *)
Lemma prepare_nil_iff_witness :
  (supermajorityReadOnly fakeValidateVoteExtensions /\
   voteValidatorReadOnly fakeValidateOracleVoteExtension tt) /\
  result (fakePrepare 7 votesAB 0) = Returned None /\
  (result (fakePrepare 7 votesBad 0)
     = Returned (Some (Collab "price bytes are too long"%string)) /\
   decodeCalls (events (fakePrepare 7 votesBad 0)) = [[x01]; [x01; x02; x03]]).
Proof.
  split; [split; [exact fakeValidateVoteExtensions_readOnly
                 |exact fakeValidateOracleVoteExtension_readOnly]|].
  split.
  - apply (prepare_nil_iff_every_vote_accepted
             fakeValidateVoteExtensions fakeDecode
             fakeValidateOracleVoteExtension tt 7 votesAB 0
             fakeValidateVoteExtensions_readOnly
             fakeValidateOracleVoteExtension_readOnly).
    split; [reflexivity|]. repeat constructor.
  - destruct (prepare_nil_iff_every_vote_accepted
                fakeValidateVoteExtensions fakeDecode
                fakeValidateOracleVoteExtension tt 7 votesBad 0
                fakeValidateVoteExtensions_readOnly
                fakeValidateOracleVoteExtension_readOnly) as [_ Hfirst].
    apply (Hfirst [extVote validatorA [x01]]
                  (extVote validatorB [x01; x02; x03])
                  [extVote validatorA []]
                  "price bytes are too long"%string);
      [reflexivity|reflexivity|repeat constructor|reflexivity].
Defined.

(** An empty vote list does not by itself make the process path succeed: the
    request is non-nil and its last commit is populated, the loops have
    nothing to do, and the call returns the supermajority predicate's
    error. *)
Lemma process_empty_vote_list_is_refused :
  Votes noVotes = [] /\
  CommitInfo_Votes (ProposedLastCommit requestAB) <> [] /\
  result (fakeProcess (Some requestAB) noVotes 0)
    = Returned (Some (Collab "total voting power must be positive"%string)) /\
  result (fakeProcess (Some requestAB) noVotes 0) <> Returned None.
Proof.
  split; [reflexivity|]. split; [discriminate|]. split; [reflexivity|].
  discriminate.
Qed.

(** ** More runs *)

(** A request at the same height whose last commit lists the same validators
    in another order, one of them twice, with other flags and another
    round. *)
Definition requestBAB : RequestProcessProposal :=
  {| Txs := [[x01]];
     ProposedLastCommit :=
       {| CommitInfo_Round := 3;
          CommitInfo_Votes :=
            [ {| VoteInfo_Validator := validatorB; VoteInfo_BlockIdFlag := 1 |};
              {| VoteInfo_Validator := validatorA; VoteInfo_BlockIdFlag := 2 |};
              {| VoteInfo_Validator :=
                   {| Address := [x0b]; Power := 0 |};
                 VoteInfo_BlockIdFlag := 3 |} ] |};
     Height := 7 |}.

Lemma votesBad_in_lastCommitAB : Forall (inLastCommit requestAB) (Votes votesBad).
Proof.
  repeat (constructor;
            [first [by apply Exists_cons_hd
                   |by apply Exists_cons_tl, Exists_cons_hd]|]).
  constructor.
Qed.

(** The agreement of the two paths at [votesBad], whose validators all
    signed the last commit of [requestAB] and whose second vote is
    rejected. *)
Lemma Process_is_Prepare_witness :
  Forall (inLastCommit requestAB) (Votes votesBad) /\
  result (fakeProcess (Some requestAB) votesBad 0)
    = result (fakePrepare 9 votesBad 0) /\
  final (fakeProcess (Some requestAB) votesBad 0)
    = final (fakePrepare 9 votesBad 0) /\
  collaboratorCalls (events (fakeProcess (Some requestAB) votesBad 0))
    = collaboratorCalls (events (fakePrepare 9 votesBad 0)).
Proof.
  split; [exact votesBad_in_lastCommitAB|].
  exact (Process_is_Prepare_when_all_in_last_commit
           fakeValidateVoteExtensions fakeDecode
           fakeValidateOracleVoteExtension tt
           requestAB votesBad 9 0 votesBad_in_lastCommitAB).
Defined.

(** The process path accepts [votesAB] against [requestAB], and so does the
    prepare path. *)
Lemma Process_stricter_witness :
  result (fakeProcess (Some requestAB) votesAB 0) = Returned None /\
  Forall (inLastCommit requestAB) (Votes votesAB) /\
  result (fakePrepare 9 votesAB 0) = Returned None.
Proof.
  assert (result (fakeProcess (Some requestAB) votesAB 0) = Returned None)
    as Hnil by (vm_compute; reflexivity).
  split; [exact Hnil|].
  destruct (Process_accepts_only_what_Prepare_accepts
              fakeValidateVoteExtensions fakeDecode
              fakeValidateOracleVoteExtension tt
              requestAB votesAB 0 Hnil) as [Hall Hprepare].
  split; [exact Hall|exact (Hprepare 9)].
Defined.

(** [requestAB] and [requestBAB] hold the validators of [votesAC] alike: A
    is in both last commits, C in neither. *)
Lemma Process_reads_addresses_witness :
  Forall (fun vote => inLastCommit requestAB vote <-> inLastCommit requestBAB vote)
         (Votes votesAC) /\
  Height requestAB = Height requestBAB /\
  fakeProcess (Some requestAB) votesAC 0 = fakeProcess (Some requestBAB) votesAC 0.
Proof.
  assert (Forall (fun vote =>
                    inLastCommit requestAB vote <-> inLastCommit requestBAB vote)
                 (Votes votesAC)) as Hsame.
  { simpl. apply Forall_cons. split; [|apply Forall_cons; split].
    - split; intros _.
      + by apply Exists_cons_tl, Exists_cons_hd.
      + by apply Exists_cons_hd.
    - split; intros H; exfalso;
        repeat (apply Exists_cons in H as [H|H]; [discriminate|]);
        by apply Exists_nil in H.
    - apply Forall_nil_2. }
  split; [exact Hsame|]. split; [reflexivity|].
  destruct (Process_reads_only_addresses_of_last_commit
              fakeValidateVoteExtensions fakeDecode
              fakeValidateOracleVoteExtension tt
              requestAB requestBAB votesAC 0 Hsame) as [_ Hrun].
  exact (Hrun eq_refl).
Defined.

End ProposalsExamples.

(** * The Uniswap V3 price fetcher *)

Module UniswapV3.

(** ** Market map and provider types, as far as the fetcher reads them *)

(** Modelled from the spec: [mmtypes.Ticker] is declared in
    [x/marketmap/types], which is not among the sources. A ticker is a pair
    with its decimals and minimum provider count; [Metadata_JSON] is the
    field [GetPool] reads. It is a comparable struct, used as a map key. *)
Record Ticker := {
  Base : string;
  Quote : string;
  Decimals : N;
  MinProviderCount : N;
  Metadata_JSON : string
}.

#[global] Instance Ticker_eq_dec : EqDecision Ticker.
Proof. solve_decision. Defined.

#[global] Instance Ticker_countable : Countable Ticker.
Proof.
  refine (inj_countable'
            (fun t => (Base t, Quote t, Decimals t, MinProviderCount t,
                       Metadata_JSON t))
            (fun '(b, q, d, m, j) => Build_Ticker b q d m j) _).
  by intros [].
Defined.

(** Modelled from the spec: [providertypes.ErrorCode] is declared in
    [providers/types], which is not among the sources; these are the four
    codes the fetcher uses. *)
Inductive ErrorCode : Type :=
| ErrorUnknown
| ErrorAPIGeneral
| ErrorFailedToDecode
| ErrorFailedToParsePrice.

Section Fetcher.

(** [PoolConfig] is the pool configuration unmarshalled from a ticker's
    metadata, [Err] the errors of the libraries and of the EVM client,
    [BigFloat] is [*big.Float], [Time] is [time.Time]. *)
Context {PoolConfig Err BigFloat Time : Type}.

(** Go errors: a library's error, [fmt.Errorf] with [%w] around an error, and
    [fmt.Errorf] without. *)
Inductive error : Type :=
| LibErr (e : Err)
| Wrap (msg : string) (err : error)
| Errorf (msg : string).

(** Modelled from the spec: [providertypes.ErrorWithCode] with its
    constructor [NewErrorWithCode(err, code)], and [UnresolvedResult], which
    embeds it; both are declared in [providers/types], not among the
    sources. *)
Record ErrorWithCode := NewErrorWithCode {
  ewc_err : error;
  ewc_code : ErrorCode
}.

Record UnresolvedResult := {
  unresolved_ErrorWithCode : ErrorWithCode
}.

(** Modelled from the spec: a resolved price as made by
    [types.NewPriceResult(value, timestamp)], declared in [oracle/types],
    not among the sources. *)
Record PriceResult := NewPriceResult {
  Value : Z;
  Timestamp : Time
}.

(** Modelled from the spec: [types.PriceResponse] as made by
    [NewPriceResponse(resolved, unResolved)], declared in [oracle/types], not
    among the sources: the two maps, as given. *)
Record PriceResponse := NewPriceResponse {
  Resolved : gmap Ticker PriceResult;
  UnResolved : gmap Ticker UnresolvedResult
}.

(** Modelled from the spec: [NewPriceResponseWithErr] belongs to
    [providers/types], which is not among the sources. It answers for a whole
    batch with one error: every given ticker is unresolved with that error,
    none is resolved. *)
Definition NewPriceResponseWithErr (tickers : list Ticker) (err : ErrorWithCode)
  : PriceResponse :=
  NewPriceResponse ∅
    (fold_left
       (fun unresolved ticker =>
          <[ticker := {| unresolved_ErrorWithCode := err |}]> unresolved)
       tickers ∅).

(** What [interface{}] holds in [BatchElem.Result]: a [*string] (nil, or
    pointing to a string variable), or a value of another type. *)
Inductive iface : Type :=
| PtrString (target : option string)
| OtherType.

(** [rpc.BatchElem]; the arguments are the map with [to] and [data], and the
    block tag. *)
Record BatchElem := {
  Method : string;
  Args_to : string;
  Args_data : list byte;
  Args_block : string;
  Result : iface;
  Error : option Err
}.

(** A value unpacked by the ABI: a [*big.Int], or something else. *)
Inductive abiValue : Type :=
| AbiBigInt (z : Z)
| AbiOther.

Inductive event : Type :=
| CallUnmarshal (metadata : string)
| CallValidateBasic (cfg : PoolConfig)
| CallBatchCallContext (batchElems : list BatchElem).

(** The collaborators. [jsonUnmarshal] gives what [json.Unmarshal] leaves in
    a zero [PoolConfig] together with its error. [BatchCallContext] receives
    the batch and writes into its elements in place: besides its error it
    gives the content of each cell of the slice after the call; the slice
    keeps its length. [timeNow i] is the clock read while the [i]-th ticker
    is resolved. [pool_Address], [ValidateBasic], [ConvertSquareRootX96Price]
    and [ScalePrice] belong to the package's files that are not among the
    sources. The logger and the latency metric are only written to and are
    left out. *)
Variable payload : list byte.
Variable pool_Address : PoolConfig -> string.
Variable jsonUnmarshal : string -> PoolConfig * option Err.
Variable ValidateBasic : PoolConfig -> option Err.
Variable BatchCallContext : list BatchElem -> option Err * (nat -> BatchElem).
Variable hexutilDecode : string -> Err + list byte.
Variable UnpackValues : list byte -> Err + list abiValue.
Variable ConvertSquareRootX96Price : Z -> BigFloat.
Variable ScalePrice : Ticker -> PoolConfig -> BigFloat -> BigFloat.
Variable Float_Int : BigFloat -> Z.
Variable timeNow : nat -> Time.

(** ** [GetPool] *)

(** The call returns the pool and the error, the pool cache after the call,
    and what it asked of the libraries. *)
Definition GetPool (ticker : Ticker) (poolCache : gmap Ticker PoolConfig)
  : (PoolConfig * option error) * gmap Ticker PoolConfig * list event :=
  match poolCache !! ticker with
  | Some pool => ((pool, None), poolCache, [])
  | None =>
      match jsonUnmarshal (Metadata_JSON ticker) with
      | (cfg, Some err) =>
          ((cfg, Some (Wrap "failed to unmarshal pool config on ticker" (LibErr err))),
           poolCache, [CallUnmarshal (Metadata_JSON ticker)])
      | (cfg, None) =>
          match ValidateBasic cfg with
          | Some err =>
              ((cfg, Some (Wrap "invalid ticker pool config" (LibErr err))),
               poolCache,
               [CallUnmarshal (Metadata_JSON ticker); CallValidateBasic cfg])
          | None =>
              ((cfg, None), <[ticker := cfg]> poolCache,
               [CallUnmarshal (Metadata_JSON ticker); CallValidateBasic cfg])
          end
      end
  end.

(** ** [ParseSqrtPriceX96] *)

(** [out[0]] converted to [*big.Int]: indexing an empty slice panics, and so
    does [abi.ConvertType] on a value of another type. *)
Definition firstBigInt (out : list abiValue) : outcome Z :=
  match out with
  | AbiBigInt z :: _ => Returned z
  | AbiOther :: _ => Panicked
  | [] => Panicked
  end.

Definition ParseSqrtPriceX96 (result : iface) : outcome (error + Z) :=
  match result with
  | OtherType => Returned (inl (Errorf "expected result to be a string, got %T"))
  | PtrString None => Returned (inl (Errorf "result is nil"))
  | PtrString (Some r) =>
      match hexutilDecode r with
      | inl err => Returned (inl (Wrap "failed to decode hex result" (LibErr err)))
      | inr bz =>
          match UnpackValues bz with
          | inl err => Returned (inl (Wrap "failed to unpack values" (LibErr err)))
          | inr out =>
              match firstBigInt out with
              | Returned sqrtPriceX96 => Returned (inr sqrtPriceX96)
              | Panicked => Panicked
              end
          end
      end
  end.

(** ** [Fetch] *)

(** The batch element for a pool: an [eth_call] of the [slot0] payload to
    the pool's address at the latest block; [Result] points to a fresh, empty
    string variable. *)
Definition batchElemFor (pool : PoolConfig) : BatchElem :=
  {| Method := "eth_call";
     Args_to := pool_Address pool;
     Args_data := payload;
     Args_block := "latest";
     Result := PtrString (Some ""%string);
     Error := None |}.

(** The first loop: a batch element and a pool for every ticker, stopping at
    the first ticker whose pool cannot be got. The slices are filled in index
    order, so they are built here by appending. *)
Fixpoint buildBatch (tickers : list Ticker) (batchElems : list BatchElem)
    (pools : list PoolConfig) (poolCache : gmap Ticker PoolConfig)
  : (error + list BatchElem * list PoolConfig) * gmap Ticker PoolConfig
    * list event :=
  match tickers with
  | [] => (inr (batchElems, pools), poolCache, [])
  | ticker :: rest =>
      match GetPool ticker poolCache with
      | ((_, Some err), poolCache', ev) => (inl err, poolCache', ev)
      | ((pool, None), poolCache', ev) =>
          match buildBatch rest (batchElems ++ [batchElemFor pool])
                  (pools ++ [pool]) poolCache' with
          | (r, poolCache'', ev') => (r, poolCache'', ev ++ ev')
          end
      end
  end.

(** The second loop, from index [i] on: [batchElems i] is the cell of the
    batch after the call, [pools[i]] panics when out of range. *)
Fixpoint parseResults (i : nat) (tickers : list Ticker)
    (batchElems : nat -> BatchElem) (pools : list PoolConfig)
    (resolved : gmap Ticker PriceResult)
    (unResolved : gmap Ticker UnresolvedResult)
  : outcome (gmap Ticker PriceResult * gmap Ticker UnresolvedResult) :=
  match tickers with
  | [] => Returned (resolved, unResolved)
  | ticker :: rest =>
      let result := batchElems i in
      match Error result with
      | Some err =>
          parseResults (S i) rest batchElems pools resolved
            (<[ticker := {| unresolved_ErrorWithCode :=
                              NewErrorWithCode (LibErr err) ErrorUnknown |}]>
               unResolved)
      | None =>
          match ParseSqrtPriceX96 (Result result) with
          | Panicked => Panicked
          | Returned (inl err) =>
              parseResults (S i) rest batchElems pools resolved
                (<[ticker := {| unresolved_ErrorWithCode :=
                                  NewErrorWithCode err ErrorFailedToParsePrice |}]>
                   unResolved)
          | Returned (inr sqrtPriceX96) =>
              let price := ConvertSquareRootX96Price sqrtPriceX96 in
              match pools !! i with
              | None => Panicked
              | Some pool =>
                  let scaledPrice := ScalePrice ticker pool price in
                  let intPrice := Float_Int scaledPrice in
                  parseResults (S i) rest batchElems pools
                    (<[ticker := NewPriceResult intPrice (timeNow i)]> resolved)
                    unResolved
              end
          end
      end
  end.

Definition Fetch (tickers : list Ticker) (poolCache : gmap Ticker PoolConfig)
  : outcome PriceResponse * gmap Ticker PoolConfig * list event :=
  match buildBatch tickers [] [] poolCache with
  | (inl err, poolCache', ev) =>
      (Returned
         (NewPriceResponseWithErr tickers
            (NewErrorWithCode (Wrap "failed to get pool" err) ErrorFailedToDecode)),
       poolCache', ev)
  | (inr (batchElems, pools), poolCache', ev) =>
      match BatchCallContext batchElems with
      | (Some err, _) =>
          (Returned
             (NewPriceResponseWithErr tickers
                (NewErrorWithCode (LibErr err) ErrorAPIGeneral)),
           poolCache', ev ++ [CallBatchCallContext batchElems])
      | (None, batchElems') =>
          (match parseResults 0 tickers batchElems' pools ∅ ∅ with
           | Returned (resolved, unResolved) =>
               Returned (NewPriceResponse resolved unResolved)
           | Panicked => Panicked
           end,
           poolCache', ev ++ [CallBatchCallContext batchElems])
      end
  end.

(** Projections of a run of [GetPool] or [Fetch]. *)
Definition result {A} (x : A * gmap Ticker PoolConfig * list event) : A :=
  x.1.1.
Definition cache {A} (x : A * gmap Ticker PoolConfig * list event)
  : gmap Ticker PoolConfig := x.1.2.
Definition events {A} (x : A * gmap Ticker PoolConfig * list event)
  : list event := x.2.

(** The error [GetPool] returns for a ticker at a given cache. *)
Definition poolError (ticker : Ticker) (poolCache : gmap Ticker PoolConfig)
  : option error :=
  (result (GetPool ticker poolCache)).2.

(** The cache after [GetPool] has been called on each of [tickers] in turn. *)
Definition cacheAfter (tickers : list Ticker)
    (poolCache : gmap Ticker PoolConfig) : gmap Ticker PoolConfig :=
  fold_left (fun c ticker => cache (GetPool ticker c)) tickers poolCache.

(** The whole batch is answered with one error. *)
Definition allUnresolved (tickers : list Ticker) (err : ErrorWithCode)
    (r : outcome PriceResponse) : Prop :=
  exists resp,
    r = Returned resp /\
    Resolved resp = ∅ /\
    forall ticker,
      UnResolved resp !! ticker =
      if decide (ticker ∈ tickers)
      then Some {| unresolved_ErrorWithCode := err |} else None.

(** What the second loop makes of one cell of the batch: the unresolved
    error, or the square root price. *)
Definition classify (cell : BatchElem) : outcome (ErrorWithCode + Z) :=
  match Error cell with
  | Some err => Returned (inl (NewErrorWithCode (LibErr err) ErrorUnknown))
  | None =>
      match ParseSqrtPriceX96 (Result cell) with
      | Panicked => Panicked
      | Returned (inl err) =>
          Returned (inl (NewErrorWithCode err ErrorFailedToParsePrice))
      | Returned (inr sqrtPriceX96) => Returned (inr sqrtPriceX96)
      end
  end.

(** The pool ABI declares [sqrtPriceX96] as the first output of [slot0], so a
    successful unpacking starts with a [*big.Int]. *)
Definition slot0Unpacks : Prop :=
  forall bz out,
    UnpackValues bz = inr out -> exists z rest, out = AbiBigInt z :: rest.

(** ** Facts about [GetPool] *)

Lemma GetPool_cached ticker poolCache pool :
  poolCache !! ticker = Some pool ->
  GetPool ticker poolCache = ((pool, None), poolCache, []).
Proof. intros H. unfold GetPool. by rewrite H. Qed.

Lemma GetPool_success ticker poolCache cfg poolCache' ev :
  GetPool ticker poolCache = ((cfg, None), poolCache', ev) ->
  poolCache' !! ticker = Some cfg /\ poolCache ⊆ poolCache'.
Proof.
  unfold GetPool. destruct (poolCache !! ticker) as [pool|] eqn:Hc.
  - intros [= <- <- <-]. done.
  - destruct (jsonUnmarshal (Metadata_JSON ticker)) as [cfg0 [err|]];
      [discriminate|].
    destruct (ValidateBasic cfg0) as [err|]; [discriminate|].
    intros [= <- <- <-]. split; [apply lookup_insert_eq|].
    by apply insert_subseteq.
Qed.

Lemma GetPool_failure ticker poolCache cfg err poolCache' ev :
  GetPool ticker poolCache = ((cfg, Some err), poolCache', ev) ->
  poolCache' = poolCache /\ poolCache !! ticker = None /\
  exists ev', ev = CallUnmarshal (Metadata_JSON ticker) :: ev'.
Proof.
  unfold GetPool. destruct (poolCache !! ticker) as [pool|] eqn:Hc;
    [discriminate|].
  destruct (jsonUnmarshal (Metadata_JSON ticker)) as [cfg0 [err0|]].
  - intros [= <- <- <- <-]. eauto.
  - destruct (ValidateBasic cfg0) as [err0|]; [|discriminate].
    intros [= <- <- <- <-]. eauto.
Qed.

Lemma GetPool_cache_mono ticker poolCache :
  poolCache ⊆ cache (GetPool ticker poolCache).
Proof.
  destruct (GetPool ticker poolCache) as [[[cfg [err|]] c'] ev] eqn:Hrun.
  - apply GetPool_failure in Hrun as [-> _]. done.
  - by apply GetPool_success in Hrun as [_ ?].
Qed.

Lemma cacheAfter_mono tickers poolCache :
  poolCache ⊆ cacheAfter tickers poolCache.
Proof.
  revert poolCache. induction tickers as [|t rest IH]; intros c; [done|].
  simpl. etrans; [apply GetPool_cache_mono|apply IH].
Qed.

(** A failure does not depend on what else is cached: it is still a failure
    after [GetPool] has succeeded on another ticker. *)
Lemma poolError_after_success ticker other poolCache cfg poolCache' ev :
  GetPool other poolCache = ((cfg, None), poolCache', ev) ->
  poolError ticker poolCache <> None ->
  poolError ticker poolCache' <> None.
Proof.
  intros Hother Hfail.
  assert (other <> ticker) as Hne.
  { intros ->. unfold poolError, result in Hfail. by rewrite Hother in Hfail. }
  assert (poolCache' !! ticker = poolCache !! ticker) as Hsame.
  { revert Hother. unfold GetPool.
    destruct (poolCache !! other) as [pool|]; [by intros [= <- <- <-]|].
    destruct (jsonUnmarshal (Metadata_JSON other)) as [cfg0 [err|]];
      [discriminate|].
    destruct (ValidateBasic cfg0) as [err|]; [discriminate|].
    intros [= <- <- <-]. by apply lookup_insert_ne. }
  unfold poolError, result, GetPool in Hfail |- *. rewrite Hsame.
  destruct (poolCache !! ticker) as [pool|]; [done|].
  destruct (jsonUnmarshal (Metadata_JSON ticker)) as [cfg0 [err|]]; [done|].
  by destruct (ValidateBasic cfg0).
Qed.

(** ** Claim about the pool cache *)

(** C10. [GetPool] is idempotent through its cache. After a successful call
    on a ticker, every later call on that ticker, whatever other tickers
    [GetPool] was called on in between, returns the same pool and a nil
    error, asks nothing of the JSON library and leaves the cache as it is. A
    failed call leaves the cache unchanged, so calling again parses the
    metadata again and fails with the same error. *)
Theorem GetPool_cached_idempotent ticker poolCache :
  (forall cfg poolCache1 ev,
      GetPool ticker poolCache = ((cfg, None), poolCache1, ev) ->
      forall others,
        GetPool ticker (cacheAfter others poolCache1)
        = ((cfg, None), cacheAfter others poolCache1, [])) /\
  (forall cfg err poolCache1 ev,
      GetPool ticker poolCache = ((cfg, Some err), poolCache1, ev) ->
      poolCache1 = poolCache /\
      GetPool ticker poolCache1 = ((cfg, Some err), poolCache1, ev) /\
      CallUnmarshal (Metadata_JSON ticker) ∈ ev).
Proof.
  split.
  - intros cfg c1 ev Hrun others.
    apply GetPool_success in Hrun as [Hc1 _].
    apply GetPool_cached.
    by eapply lookup_weaken; [exact Hc1|apply cacheAfter_mono].
  - intros cfg err c1 ev Hrun.
    pose proof (GetPool_failure _ _ _ _ _ _ Hrun) as (-> & _ & ev' & ->).
    split; [reflexivity|]. split; [exact Hrun|]. apply list_elem_of_here.
Qed.

(** ** The response for a failed batch *)

Lemma fold_insert_unresolved tickers (err : ErrorWithCode)
    (m : gmap Ticker UnresolvedResult) ticker :
  fold_left
    (fun unresolved t => <[t := {| unresolved_ErrorWithCode := err |}]> unresolved)
    tickers m !! ticker =
  if decide (ticker ∈ tickers)
  then Some {| unresolved_ErrorWithCode := err |} else m !! ticker.
Proof.
  revert m. induction tickers as [|t rest IH]; intros m; simpl.
  - destruct (decide (ticker ∈ [])) as [Hin|Hin]; [by apply elem_of_nil in Hin|done].
  - rewrite IH. destruct (decide (ticker ∈ rest)) as [Hin|Hnin].
    + rewrite decide_True; [done|]. by apply list_elem_of_further.
    + destruct (decide (ticker = t)) as [->|Hne].
      * rewrite lookup_insert_eq, decide_True; [done|]. apply list_elem_of_here.
      * rewrite lookup_insert_ne by done. rewrite decide_False; [done|].
        intros [?|?]%elem_of_cons; done.
Qed.

Lemma NewPriceResponseWithErr_allUnresolved tickers err :
  allUnresolved tickers err (Returned (NewPriceResponseWithErr tickers err)).
Proof.
  eexists. split; [reflexivity|]. split; [reflexivity|].
  intros ticker. unfold NewPriceResponseWithErr. simpl.
  rewrite fold_insert_unresolved. by case_decide.
Qed.

(** ** The first loop *)

Lemma GetPool_no_batch_event ticker poolCache batchElems :
  CallBatchCallContext batchElems ∉ events (GetPool ticker poolCache).
Proof.
  unfold GetPool, events. destruct (poolCache !! ticker) as [pool|]; simpl.
  { apply not_elem_of_nil. }
  destruct (jsonUnmarshal (Metadata_JSON ticker)) as [cfg [err|]]; simpl.
  { intros [?|?%elem_of_nil]%elem_of_cons; done. }
  destruct (ValidateBasic cfg) as [err|]; simpl;
    intros [?|[?|?%elem_of_nil]%elem_of_cons]%elem_of_cons; done.
Qed.

Lemma buildBatch_cons ticker rest batchElems pools poolCache :
  buildBatch (ticker :: rest) batchElems pools poolCache =
  match GetPool ticker poolCache with
  | ((_, Some err), poolCache', ev) => (inl err, poolCache', ev)
  | ((pool, None), poolCache', ev) =>
      match buildBatch rest (batchElems ++ [batchElemFor pool])
              (pools ++ [pool]) poolCache' with
      | (r, poolCache'', ev') => (r, poolCache'', ev ++ ev')
      end
  end.
Proof. reflexivity. Qed.

Lemma buildBatch_no_batch_event tickers batchElems pools poolCache b :
  CallBatchCallContext b ∉ events (buildBatch tickers batchElems pools poolCache).
Proof.
  revert batchElems pools poolCache.
  induction tickers as [|t rest IH]; intros be ps c.
  - apply not_elem_of_nil.
  - rewrite buildBatch_cons.
    pose proof (GetPool_no_batch_event t c b) as Hget.
    destruct (GetPool t c) as [[[pool [err|]] c'] ev]; [exact Hget|].
    specialize (IH (be ++ [batchElemFor pool]) (ps ++ [pool]) c').
    destruct (buildBatch rest _ _ c') as [[r c''] ev'].
    unfold events in *; simpl in *. intros [?|?]%elem_of_app; done.
Qed.

(** One failing ticker makes the first loop return an error. *)
Lemma buildBatch_fails tickers batchElems pools poolCache ticker :
  ticker ∈ tickers ->
  poolError ticker poolCache <> None ->
  exists err,
    result (buildBatch tickers batchElems pools poolCache) = inl err.
Proof.
  revert batchElems pools poolCache.
  induction tickers as [|t rest IH]; intros be ps c Hin Hfail.
  - by apply elem_of_nil in Hin.
  - rewrite buildBatch_cons.
    destruct (GetPool t c) as [[[pool [err|]] c'] ev] eqn:Hget; [by exists err|].
    apply elem_of_cons in Hin as [->|Hin].
    + unfold poolError, result in Hfail. by rewrite Hget in Hfail.
    + destruct (IH (be ++ [batchElemFor pool]) (ps ++ [pool]) c' Hin
                  (poolError_after_success _ _ _ _ _ _ Hget Hfail)) as (err & He).
      destruct (buildBatch rest _ _ c') as [[r c''] ev']. by exists err.
Qed.

(** When the first loop completes, it has appended one pool and one batch
    element per ticker, and each pool is the one the cache now holds for its
    ticker. *)
Lemma buildBatch_completes tickers batchElems pools poolCache
    batchElems' pools' poolCache' ev :
  buildBatch tickers batchElems pools poolCache
    = (inr (batchElems', pools'), poolCache', ev) ->
  exists added,
    batchElems' = batchElems ++ (batchElemFor <$> added) /\
    pools' = pools ++ added /\
    Forall2 (fun t pool => poolCache' !! t = Some pool) tickers added /\
    poolCache ⊆ poolCache'.
Proof.
  revert batchElems pools poolCache ev.
  induction tickers as [|t rest IH]; intros be ps c ev.
  - intros [= <- <- <- <-]. exists []. by rewrite !app_nil_r.
  - rewrite buildBatch_cons.
    destruct (GetPool t c) as [[[pool [err|]] c1] ev1] eqn:Hget; [discriminate|].
    destruct (buildBatch rest _ _ c1) as [[r c2] ev2] eqn:Hrest.
    intros [= -> <- <-].
    destruct (IH _ _ _ _ Hrest) as (added & -> & -> & Hall & Hsub).
    apply GetPool_success in Hget as [Hc1 Hsub1].
    exists (pool :: added). rewrite <- !app_assoc. simpl.
    split; [done|]. split; [done|]. split; [|by etrans].
    constructor; [|done]. by eapply lookup_weaken.
Qed.

Lemma poolError_None_mono ticker poolCache poolCache' :
  poolCache ⊆ poolCache' ->
  poolError ticker poolCache = None -> poolError ticker poolCache' = None.
Proof.
  intros Hsub. unfold poolError, result, GetPool.
  destruct (poolCache !! ticker) as [pool|] eqn:Hc.
  - by rewrite (lookup_weaken _ _ _ _ Hc Hsub).
  - destruct (poolCache' !! ticker) as [pool'|]; [done|].
    destruct (jsonUnmarshal (Metadata_JSON ticker)) as [cfg [err|]]; [done|].
    by destruct (ValidateBasic cfg).
Qed.

Lemma buildBatch_succeeds tickers batchElems pools poolCache :
  (forall ticker, ticker ∈ tickers -> poolError ticker poolCache = None) ->
  exists bp, result (buildBatch tickers batchElems pools poolCache) = inr bp.
Proof.
  revert batchElems pools poolCache.
  induction tickers as [|t rest IH]; intros be ps c Hok.
  - by eexists.
  - rewrite buildBatch_cons.
    pose proof (Hok t (list_elem_of_here _ _)) as Ht.
    pose proof (GetPool_cache_mono t c) as Hmono.
    unfold poolError, result, cache in Ht, Hmono.
    destruct (GetPool t c) as [[[pool [err|]] c'] ev]; simpl in *;
      [discriminate|].
    destruct (IH (be ++ [batchElemFor pool]) (ps ++ [pool]) c') as (bp & Hbp).
    { intros t' Hin. eapply poolError_None_mono; [exact Hmono|].
      by apply Hok, list_elem_of_further. }
    destruct (buildBatch rest _ _ c') as [[r c''] ev']. by exists bp.
Qed.

(** ** Claim about failures of the whole batch *)

(** C8. If [GetPool] fails for one of the input tickers, [Fetch] answers with
    every input ticker unresolved under [ErrorFailedToDecode] and none
    resolved; if the batched EVM call that [Fetch] makes fails as a whole,
    it answers with every input ticker unresolved under [ErrorAPIGeneral],
    carrying the client's error, and none resolved. *)
Theorem Fetch_fails_as_a_whole tickers poolCache :
  (forall ticker,
      ticker ∈ tickers ->
      poolError ticker poolCache <> None ->
      exists err,
        allUnresolved tickers
          (NewErrorWithCode (Wrap "failed to get pool" err) ErrorFailedToDecode)
          (result (Fetch tickers poolCache))) /\
  (forall batchElems err,
      CallBatchCallContext batchElems ∈ events (Fetch tickers poolCache) ->
      (BatchCallContext batchElems).1 = Some err ->
      allUnresolved tickers
        (NewErrorWithCode (LibErr err) ErrorAPIGeneral)
        (result (Fetch tickers poolCache))).
Proof.
  split.
  - intros ticker Hin Hfail.
    destruct (buildBatch_fails tickers [] [] poolCache ticker Hin Hfail)
      as (err & Herr).
    exists err. unfold Fetch.
    destruct (buildBatch tickers [] [] poolCache) as [[[e|bp] c'] ev];
      unfold result in Herr; simpl in Herr; [|discriminate].
    injection Herr as ->. apply NewPriceResponseWithErr_allUnresolved.
  - intros b err Hin Hfail. unfold Fetch in *.
    pose proof (buildBatch_no_batch_event tickers [] [] poolCache b) as Hno.
    destruct (buildBatch tickers [] [] poolCache) as [[[e|[be ps]] c'] ev];
      [done|].
    assert (b = be) as ->.
    { destruct (BatchCallContext be) as [[e|] cells]; unfold events in *;
        simpl in *; apply elem_of_app in Hin as [Hin|Hin]; try done;
        apply list_elem_of_singleton in Hin; congruence. }
    destruct (BatchCallContext be) as [[e|] cells]; simpl in Hfail;
      [|discriminate].
    injection Hfail as ->. apply NewPriceResponseWithErr_allUnresolved.
Qed.

(** ** The second loop *)

Lemma classify_returns cell :
  slot0Unpacks -> exists r, classify cell = Returned r.
Proof.
  intros Habi. unfold classify, ParseSqrtPriceX96.
  destruct (Error cell) as [err|]; [by eexists|].
  destruct (Result cell) as [[r|]|]; try by eexists.
  destruct (hexutilDecode r) as [err|bz]; [by eexists|].
  destruct (UnpackValues bz) as [err|out] eqn:Hout; [by eexists|].
  destruct (Habi bz out Hout) as (z & rest & ->). by eexists.
Qed.

Lemma parseResults_cons i ticker rest cells pools resolved unResolved :
  parseResults i (ticker :: rest) cells pools resolved unResolved =
  match classify (cells i) with
  | Panicked => Panicked
  | Returned (inl err) =>
      parseResults (S i) rest cells pools resolved
        (<[ticker := {| unresolved_ErrorWithCode := err |}]> unResolved)
  | Returned (inr sqrtPriceX96) =>
      match pools !! i with
      | None => Panicked
      | Some pool =>
          parseResults (S i) rest cells pools
            (<[ticker :=
                 NewPriceResult
                   (Float_Int
                      (ScalePrice ticker pool
                         (ConvertSquareRootX96Price sqrtPriceX96)))
                   (timeNow i)]> resolved)
            unResolved
      end
  end.
Proof.
  simpl. unfold classify. destruct (Error (cells i)) as [err|]; [reflexivity|].
  by destruct (ParseSqrtPriceX96 (Result (cells i))) as [[err|z]|].
Qed.

(** With enough pools the second loop returns. *)
Lemma parseResults_returns i tickers cells pools resolved unResolved :
  slot0Unpacks ->
  i + length tickers <= length pools ->
  exists maps,
    parseResults i tickers cells pools resolved unResolved = Returned maps.
Proof.
  intros Habi. revert i resolved unResolved.
  induction tickers as [|t rest IH]; intros i res unres Hlen; [by eexists|].
  rewrite parseResults_cons. simpl in Hlen.
  destruct (classify_returns (cells i) Habi) as ([err|z] & ->).
  - apply IH. lia.
  - destruct (lookup_lt_is_Some_2 pools i) as [pool ->]; [lia|].
    apply IH. lia.
Qed.

(** Tickers that are not in the list keep their entries. *)
Lemma parseResults_other i tickers cells pools resolved unResolved
    resolved' unResolved' ticker :
  parseResults i tickers cells pools resolved unResolved
    = Returned (resolved', unResolved') ->
  ticker ∉ tickers ->
  resolved' !! ticker = resolved !! ticker /\
  unResolved' !! ticker = unResolved !! ticker.
Proof.
  revert i resolved unResolved.
  induction tickers as [|t rest IH]; intros i res unres.
  - by intros [= <- <-] _.
  - rewrite parseResults_cons. intros Hrun Hnin.
    apply not_elem_of_cons in Hnin as [Hne Hnin].
    destruct (classify (cells i)) as [[err|z]|]; [| |discriminate].
    + destruct (IH _ _ _ Hrun Hnin) as [-> ->].
      by rewrite lookup_insert_ne.
    + destruct (pools !! i) as [pool|]; [|discriminate].
      destruct (IH _ _ _ Hrun Hnin) as [-> ->].
      by rewrite lookup_insert_ne.
Qed.

(** Entries are overwritten, never removed. *)
Lemma parseResults_keeps i tickers cells pools resolved unResolved
    resolved' unResolved' ticker :
  parseResults i tickers cells pools resolved unResolved
    = Returned (resolved', unResolved') ->
  (is_Some (resolved !! ticker) -> is_Some (resolved' !! ticker)) /\
  (is_Some (unResolved !! ticker) -> is_Some (unResolved' !! ticker)).
Proof.
  revert i resolved unResolved.
  induction tickers as [|t rest IH]; intros i res unres.
  - by intros [= <- <-].
  - rewrite parseResults_cons. intros Hrun.
    destruct (classify (cells i)) as [[err|z]|]; [| |discriminate].
    + destruct (IH _ _ _ Hrun) as [Hres Hunres]. split; [done|].
      intros Hsome. apply Hunres. rewrite lookup_insert_is_Some'. by right.
    + destruct (pools !! i) as [pool|]; [|discriminate].
      destruct (IH _ _ _ Hrun) as [Hres Hunres]. split; [|done].
      intros Hsome. apply Hres. rewrite lookup_insert_is_Some'. by right.
Qed.

(** Every ticker of the list ends up in one of the maps. *)
Lemma parseResults_covers i tickers cells pools resolved unResolved
    resolved' unResolved' ticker :
  parseResults i tickers cells pools resolved unResolved
    = Returned (resolved', unResolved') ->
  ticker ∈ tickers ->
  is_Some (resolved' !! ticker) \/ is_Some (unResolved' !! ticker).
Proof.
  revert i resolved unResolved.
  induction tickers as [|t rest IH]; intros i res unres.
  - intros _ Hin. by apply elem_of_nil in Hin.
  - rewrite parseResults_cons. intros Hrun Hin.
    destruct (decide (ticker ∈ rest)) as [Hrest|Hrest].
    { destruct (classify (cells i)) as [[err|z]|]; [| |discriminate].
      - by eapply IH.
      - destruct (pools !! i) as [pool|]; [|discriminate]. by eapply IH. }
    apply elem_of_cons in Hin as [->|Hin]; [|done].
    destruct (classify (cells i)) as [[err|z]|]; [| |discriminate].
    + right. destruct (parseResults_other _ _ _ _ _ _ _ _ _ Hrun Hrest)
        as [_ ->]. by rewrite lookup_insert_eq.
    + destruct (pools !! i) as [pool|]; [|discriminate].
      left. destruct (parseResults_other _ _ _ _ _ _ _ _ _ Hrun Hrest)
        as [-> _]. by rewrite lookup_insert_eq.
Qed.

(** The ticker at position [j] is entered in the map its own cell of the
    batch selects, whatever the other cells hold. *)
Lemma parseResults_selects i tickers cells pools resolved unResolved
    resolved' unResolved' j ticker :
  parseResults i tickers cells pools resolved unResolved
    = Returned (resolved', unResolved') ->
  tickers !! j = Some ticker ->
  match classify (cells (i + j)) with
  | Returned (inl _) => is_Some (unResolved' !! ticker)
  | Returned (inr _) => is_Some (resolved' !! ticker)
  | Panicked => False
  end.
Proof.
  revert i j resolved unResolved.
  induction tickers as [|t rest IH]; intros i j res unres; [done|].
  rewrite parseResults_cons. intros Hrun Hj.
  destruct j as [|j]; simpl in Hj.
  - injection Hj as ->. rewrite Nat.add_0_r.
    destruct (classify (cells i)) as [[err|z]|]; [| |discriminate].
    + apply (parseResults_keeps _ _ _ _ _ _ _ _ ticker) in Hrun as [_ Hkeep].
      apply Hkeep. by rewrite lookup_insert_eq.
    + destruct (pools !! i) as [pool|]; [|discriminate].
      apply (parseResults_keeps _ _ _ _ _ _ _ _ ticker) in Hrun as [Hkeep _].
      apply Hkeep. by rewrite lookup_insert_eq.
  - replace (i + S j) with (S i + j) by lia.
    destruct (classify (cells i)) as [[err|z]|]; [| |discriminate].
    + by eapply IH.
    + destruct (pools !! i) as [pool|]; [|discriminate]. by eapply IH.
Qed.

(** Without repeated tickers, what happens to the ticker at position [j] is
    decided by its own cell of the batch, and by nothing else. *)
Lemma parseResults_cell i tickers cells pools resolved unResolved
    resolved' unResolved' j ticker :
  parseResults i tickers cells pools resolved unResolved
    = Returned (resolved', unResolved') ->
  NoDup tickers ->
  tickers !! j = Some ticker ->
  match classify (cells (i + j)) with
  | Returned (inl err) =>
      unResolved' !! ticker = Some {| unresolved_ErrorWithCode := err |} /\
      resolved' !! ticker = resolved !! ticker
  | Returned (inr sqrtPriceX96) =>
      exists pool,
        pools !! (i + j) = Some pool /\
        resolved' !! ticker =
          Some (NewPriceResult
                  (Float_Int
                     (ScalePrice ticker pool
                        (ConvertSquareRootX96Price sqrtPriceX96)))
                  (timeNow (i + j))) /\
        unResolved' !! ticker = unResolved !! ticker
  | Panicked => False
  end.
Proof.
  revert i j resolved unResolved.
  induction tickers as [|t rest IH]; intros i j res unres; [done|].
  rewrite parseResults_cons. intros Hrun Hnodup Hj.
  apply NoDup_cons in Hnodup as [Hnin Hnodup].
  destruct j as [|j]; simpl in Hj.
  - injection Hj as ->. rewrite Nat.add_0_r.
    destruct (classify (cells i)) as [[err|z]|]; [| |discriminate].
    + destruct (parseResults_other _ _ _ _ _ _ _ _ _ Hrun Hnin) as [-> ->].
      by rewrite lookup_insert_eq.
    + destruct (pools !! i) as [pool|]; [|discriminate].
      destruct (parseResults_other _ _ _ _ _ _ _ _ _ Hrun Hnin) as [-> ->].
      exists pool. by rewrite lookup_insert_eq.
  - assert (t <> ticker) as Hne.
    { intros ->. apply Hnin. by eapply list_elem_of_lookup_2. }
    replace (i + S j) with (S i + j) by lia.
    destruct (classify (cells i)) as [[err|z]|]; [| |discriminate].
    + specialize (IH _ _ _ _ Hrun Hnodup Hj).
      destruct (classify (cells (S i + j))) as [[err'|z']|]; [done| |done].
      destruct IH as (pool & ? & ? & IH). exists pool.
      by rewrite lookup_insert_ne in IH.
    + destruct (pools !! i) as [pool|]; [|discriminate].
      specialize (IH _ _ _ _ Hrun Hnodup Hj).
      destruct (classify (cells (S i + j))) as [[err'|z']|]; [|done|done].
      by rewrite lookup_insert_ne in IH.
Qed.

(** ** Claim about per-ticker results *)

(** C9, for input tickers that may repeat and, in its last part, for
    pairwise distinct ones. When [GetPool] succeeds for every input ticker and
    the batched EVM call succeeds, [Fetch] returns a response in which every
    input ticker is resolved or unresolved and no other ticker occurs; the
    ticker at position [i] is unresolved when cell [i] of the batch carries
    an RPC error or does not parse, and resolved when it parses, whatever the
    other cells hold. When the input tickers are pairwise distinct, the ticker
    at position [i] is in exactly one of the two maps: unresolved with
    [ErrorUnknown] when its cell carries an RPC error, unresolved with
    [ErrorFailedToParsePrice] when the cell's result does not parse, and
    resolved to the scaled price of its own pool otherwise. *)
Theorem Fetch_resolves_each_ticker_by_its_own_cell tickers poolCache :
  slot0Unpacks ->
  (forall ticker, ticker ∈ tickers -> poolError ticker poolCache = None) ->
  (forall batchElems,
      CallBatchCallContext batchElems ∈ events (Fetch tickers poolCache) ->
      (BatchCallContext batchElems).1 = None) ->
  exists batchElems resp,
    CallBatchCallContext batchElems ∈ events (Fetch tickers poolCache) /\
    result (Fetch tickers poolCache) = Returned resp /\
    (forall ticker,
        ticker ∈ tickers ->
        is_Some (Resolved resp !! ticker) \/ is_Some (UnResolved resp !! ticker)) /\
    (forall ticker,
        ticker ∉ tickers ->
        Resolved resp !! ticker = None /\ UnResolved resp !! ticker = None) /\
    (forall i ticker,
        tickers !! i = Some ticker ->
        match classify ((BatchCallContext batchElems).2 i) with
        | Returned (inl _) => is_Some (UnResolved resp !! ticker)
        | Returned (inr _) => is_Some (Resolved resp !! ticker)
        | Panicked => False
        end) /\
    (NoDup tickers ->
     forall i ticker,
       tickers !! i = Some ticker ->
       match classify ((BatchCallContext batchElems).2 i) with
       | Returned (inl err) =>
           UnResolved resp !! ticker = Some {| unresolved_ErrorWithCode := err |} /\
           Resolved resp !! ticker = None
       | Returned (inr sqrtPriceX96) =>
           exists pool,
             cache (Fetch tickers poolCache) !! ticker = Some pool /\
             Resolved resp !! ticker =
               Some (NewPriceResult
                       (Float_Int
                          (ScalePrice ticker pool
                             (ConvertSquareRootX96Price sqrtPriceX96)))
                       (timeNow i)) /\
             UnResolved resp !! ticker = None
       | Panicked => False
       end).
Proof.
  intros Habi Hpools Hbatch.
  destruct (buildBatch_succeeds tickers [] [] poolCache Hpools) as (bp & Hbp).
  unfold Fetch in *.
  destruct (buildBatch tickers [] [] poolCache) as [[r c'] ev] eqn:Hbuild.
  unfold result in Hbp; simpl in Hbp. subst r. destruct bp as [be ps].
  destruct (buildBatch_completes _ _ _ _ _ _ _ _ Hbuild)
    as (added & _ & Hps & Hall & _).
  simpl in Hps. subst ps.
  specialize (Hbatch be).
  destruct (BatchCallContext be) as [[e|] cells] eqn:Hclient;
    unfold events in *; simpl in *.
  { discriminate Hbatch. apply elem_of_app. right. apply list_elem_of_here. }
  clear Hbatch.
  destruct (parseResults_returns 0 tickers cells added ∅ ∅ Habi)
    as ([res unres] & Hrun).
  { by rewrite (Forall2_length _ _ _ Hall). }
  rewrite Hrun. exists be, (NewPriceResponse res unres).
  split; [apply elem_of_app; right; apply list_elem_of_here|].
  split; [reflexivity|]. simpl. split; [|split; [|split]].
  - intros ticker Hin. by eapply parseResults_covers.
  - intros ticker Hnin.
    destruct (parseResults_other _ _ _ _ _ _ _ _ _ Hrun Hnin) as [-> ->].
    by rewrite !lookup_empty.
  - intros i ticker Hi. rewrite Hclient. simpl.
    exact (parseResults_selects _ _ _ _ _ _ _ _ _ _ Hrun Hi).
  - intros Hnodup i ticker Hi. rewrite Hclient. simpl.
    pose proof (parseResults_cell _ _ _ _ _ _ _ _ _ _ Hrun Hnodup Hi) as Hcell.
    simpl in Hcell.
    destruct (classify (cells i)) as [[err|z]|]; [| |done].
    + destruct Hcell as [-> ->]. split; [reflexivity|apply lookup_empty].
    + destruct Hcell as (pool & Hpool & -> & ->). exists pool.
      split; [|split; [reflexivity|apply lookup_empty]].
      unfold cache; simpl. by eapply (Forall2_lookup_lr _ _ _ _ _ _ Hall).
Qed.

(** * More about the fetcher *)

(** Every cached pool is the validated parse of its ticker's metadata. *)
Definition validCache (poolCache : gmap Ticker PoolConfig) : Prop :=
  forall ticker cfg,
    poolCache !! ticker = Some cfg ->
    jsonUnmarshal (Metadata_JSON ticker) = (cfg, None) /\
    ValidateBasic cfg = None.

(** The batches a run handed to the EVM client, in order. *)
Definition batchCalls (evs : list event) : list (list BatchElem) :=
  omap (fun e => match e with
                 | CallBatchCallContext batchElems => Some batchElems
                 | _ => None
                 end) evs.

(** ** The cache through [GetPool] and [Fetch] *)

Lemma GetPool_lookup_other ticker other poolCache :
  ticker <> other ->
  cache (GetPool ticker poolCache) !! other = poolCache !! other.
Proof.
  intros Hne. unfold cache, GetPool.
  destruct (poolCache !! ticker) as [pool|]; [done|].
  destruct (jsonUnmarshal (Metadata_JSON ticker)) as [cfg [err|]]; [done|].
  destruct (ValidateBasic cfg) as [err|]; [done|]. simpl.
  by apply lookup_insert_ne.
Qed.

Lemma GetPool_validCache ticker poolCache :
  validCache poolCache ->
  validCache (cache (GetPool ticker poolCache)) /\
  forall cfg,
    result (GetPool ticker poolCache) = (cfg, None) ->
    jsonUnmarshal (Metadata_JSON ticker) = (cfg, None) /\
    ValidateBasic cfg = None.
Proof.
  intros Hvalid. unfold cache, result, GetPool.
  destruct (poolCache !! ticker) as [pool|] eqn:Hc; simpl.
  { split; [done|]. intros cfg [= <-]. by apply Hvalid. }
  destruct (jsonUnmarshal (Metadata_JSON ticker)) as [cfg0 [err|]] eqn:Hu;
    simpl; [by split|].
  destruct (ValidateBasic cfg0) as [err|] eqn:Hv; simpl; [by split|].
  split; [|by intros cfg [= <-]].
  intros t' cfg'. destruct (decide (ticker = t')) as [<-|Hne].
  - rewrite lookup_insert_eq. by intros [= <-].
  - rewrite lookup_insert_ne by done. apply Hvalid.
Qed.

(** What holds of the cache before the first loop and is kept by [GetPool]
    on the given tickers holds after the loop. *)
Lemma buildBatch_cache_ind (P : gmap Ticker PoolConfig -> Prop)
    tickers batchElems pools poolCache :
  (forall ticker c, ticker ∈ tickers -> P c -> P (cache (GetPool ticker c))) ->
  P poolCache ->
  P (cache (buildBatch tickers batchElems pools poolCache)).
Proof.
  revert batchElems pools poolCache.
  induction tickers as [|t rest IH]; intros be ps c Hstep Hc; [done|].
  rewrite buildBatch_cons.
  pose proof (Hstep t c (list_elem_of_here _ _) Hc) as Hc'.
  destruct (GetPool t c) as [[[pool [err|]] c'] ev]; [done|].
  specialize (IH (be ++ [batchElemFor pool]) (ps ++ [pool]) c').
  destruct (buildBatch rest _ _ c') as [[r c''] ev'].
  apply IH; [|done]. intros t' c0 Hin. by apply Hstep, list_elem_of_further.
Qed.

Lemma Fetch_cache tickers poolCache :
  cache (Fetch tickers poolCache) = cache (buildBatch tickers [] [] poolCache).
Proof.
  unfold Fetch.
  destruct (buildBatch tickers [] [] poolCache) as [[[e|[be ps]] c'] ev];
    [done|].
  by destruct (BatchCallContext be) as [[e|] cells].
Qed.

(** X8. The pool cache only ever holds validated parses. If every cached
    pool is what [json.Unmarshal] makes of its ticker's metadata and has
    passed [ValidateBasic], which is true of the empty cache a new fetcher
    starts with, then this is still so after [GetPool] and after [Fetch],
    and every pool [GetPool] returns without error is such a pool, whether
    it came from the cache or from a fresh parse. *)
Theorem pool_cache_holds_validated_parses poolCache :
  validCache poolCache ->
  (forall ticker,
      validCache (cache (GetPool ticker poolCache)) /\
      forall cfg,
        result (GetPool ticker poolCache) = (cfg, None) ->
        jsonUnmarshal (Metadata_JSON ticker) = (cfg, None) /\
        ValidateBasic cfg = None) /\
  (forall tickers, validCache (cache (Fetch tickers poolCache))).
Proof.
  intros Hvalid. split.
  - intros ticker. by apply GetPool_validCache.
  - intros tickers. rewrite Fetch_cache.
    apply (buildBatch_cache_ind validCache); [|done].
    intros t c _ Hc. by apply GetPool_validCache.
Qed.

(** X9. [Fetch] never removes or replaces a cached pool, and adds pools for
    its input tickers only: the cache after the call extends the cache
    before it and agrees with it on every ticker that is not in the input.
    When no input ticker's pool fails, every input ticker is cached
    afterwards. *)
Theorem Fetch_extends_cache_by_input_tickers tickers poolCache :
  poolCache ⊆ cache (Fetch tickers poolCache) /\
  (forall ticker,
      ticker ∉ tickers ->
      cache (Fetch tickers poolCache) !! ticker = poolCache !! ticker) /\
  ((forall ticker, ticker ∈ tickers -> poolError ticker poolCache = None) ->
   forall ticker,
     ticker ∈ tickers -> is_Some (cache (Fetch tickers poolCache) !! ticker)).
Proof.
  rewrite Fetch_cache. split; [|split].
  - apply (buildBatch_cache_ind (fun c => poolCache ⊆ c)); [|done].
    intros t c _ Hc. etrans; [exact Hc|apply GetPool_cache_mono].
  - intros ticker Hnin.
    apply (buildBatch_cache_ind
             (fun c => c !! ticker = poolCache !! ticker)); [|done].
    intros t c Hin Hc. rewrite GetPool_lookup_other; [done|].
    by intros ->.
  - intros Hok ticker Hin.
    destruct (buildBatch_succeeds tickers [] [] poolCache Hok) as ([be ps] & Hbp).
    destruct (buildBatch tickers [] [] poolCache) as [[r c'] ev] eqn:Hbuild.
    unfold result in Hbp; simpl in Hbp. subst r.
    destruct (buildBatch_completes _ _ _ _ _ _ _ _ Hbuild)
      as (added & _ & _ & Hall & _).
    unfold cache; simpl.
    apply list_elem_of_lookup in Hin as [i Hi].
    destruct (Forall2_lookup_l _ _ _ _ _ Hall Hi) as (pool & _ & Hpool).
    by exists pool.
Qed.

(** ** The calls to the EVM client *)

Lemma GetPool_batchCalls ticker poolCache :
  batchCalls (events (GetPool ticker poolCache)) = [].
Proof.
  unfold GetPool, events. destruct (poolCache !! ticker) as [pool|]; [done|].
  destruct (jsonUnmarshal (Metadata_JSON ticker)) as [cfg [err|]]; [done|].
  by destruct (ValidateBasic cfg).
Qed.

Lemma buildBatch_batchCalls tickers batchElems pools poolCache :
  batchCalls (events (buildBatch tickers batchElems pools poolCache)) = [].
Proof.
  revert batchElems pools poolCache.
  induction tickers as [|t rest IH]; intros be ps c; [done|].
  rewrite buildBatch_cons. pose proof (GetPool_batchCalls t c) as Hget.
  destruct (GetPool t c) as [[[pool [err|]] c'] ev]; [done|].
  specialize (IH (be ++ [batchElemFor pool]) (ps ++ [pool]) c').
  destruct (buildBatch rest _ _ c') as [[r c''] ev'].
  unfold events, batchCalls in *; simpl in *. by rewrite omap_app, Hget, IH.
Qed.

(** X10. [Fetch] calls the EVM client at most once, and not at all when the
    pool of an input ticker cannot be got: a bad pool config costs no
    network call. When every pool is got, the one batch it sends has one
    element per input ticker, in the order of the tickers, and the element
    of a ticker is the [slot0] call to the address of the pool the cache
    holds for that ticker. *)
Theorem Fetch_calls_client_once_with_one_element_per_ticker tickers poolCache :
  (length (batchCalls (events (Fetch tickers poolCache))) <= 1)%nat /\
  (forall ticker,
      ticker ∈ tickers ->
      poolError ticker poolCache <> None ->
      batchCalls (events (Fetch tickers poolCache)) = []) /\
  ((forall ticker, ticker ∈ tickers -> poolError ticker poolCache = None) ->
   exists batchElems,
     batchCalls (events (Fetch tickers poolCache)) = [batchElems] /\
     Forall2
       (fun ticker elem =>
          exists pool,
            cache (Fetch tickers poolCache) !! ticker = Some pool /\
            elem = batchElemFor pool)
       tickers batchElems).
Proof.
  split; [|split].
  - unfold Fetch. pose proof (buildBatch_batchCalls tickers [] [] poolCache) as H.
    destruct (buildBatch tickers [] [] poolCache) as [[[e|[be ps]] c'] ev];
      unfold events, batchCalls in *; simpl in *.
    + rewrite H. simpl. lia.
    + destruct (BatchCallContext be) as [[e|] cells]; simpl;
        rewrite omap_app, H; simpl; lia.
  - intros ticker Hin Hfail.
    destruct (buildBatch_fails tickers [] [] poolCache ticker Hin Hfail)
      as (err & Herr).
    unfold Fetch. pose proof (buildBatch_batchCalls tickers [] [] poolCache) as H.
    destruct (buildBatch tickers [] [] poolCache) as [[[e|bp] c'] ev];
      unfold result in Herr; simpl in Herr; [|discriminate].
    exact H.
  - intros Hok.
    destruct (buildBatch_succeeds tickers [] [] poolCache Hok) as ([be ps] & Hbp).
    rewrite Fetch_cache. unfold Fetch.
    pose proof (buildBatch_batchCalls tickers [] [] poolCache) as H.
    destruct (buildBatch tickers [] [] poolCache) as [[r c'] ev] eqn:Hbuild.
    unfold result in Hbp; simpl in Hbp. subst r.
    destruct (buildBatch_completes _ _ _ _ _ _ _ _ Hbuild)
      as (added & Hbe & _ & Hall & _).
    simpl in Hbe. subst be. exists (batchElemFor <$> added). split.
    + destruct (BatchCallContext (batchElemFor <$> added)) as [[e|] cells];
        unfold events, batchCalls in *; simpl in *;
        by rewrite omap_app, H.
    + unfold cache; simpl. apply Forall2_fmap_r.
      eapply Forall2_impl; [exact Hall|]. intros t0 pool Hpool. by exists pool.
Qed.

(** ** No index out of range *)

Lemma ParseSqrtPriceX96_returns res :
  slot0Unpacks -> exists r, ParseSqrtPriceX96 res = Returned r.
Proof.
  intros Habi. unfold ParseSqrtPriceX96.
  destruct res as [[r|]|]; try by eexists.
  destruct (hexutilDecode r) as [err|bz]; [by eexists|].
  destruct (UnpackValues bz) as [err|out] eqn:Hout; [by eexists|].
  destruct (Habi bz out Hout) as (z & rest & ->). by eexists.
Qed.

(** X11. [Fetch] and [ParseSqrtPriceX96] do not panic, whatever the tickers,
    the cache and the client's answers, as long as a successful unpacking of
    [slot0] starts with a big integer: [pools[i]] and [batchElems[i]] are
    always in range, because the first loop has filled one pool per ticker
    whenever the second loop runs. *)
Theorem Fetch_does_not_panic tickers poolCache :
  slot0Unpacks ->
  (exists resp, result (Fetch tickers poolCache) = Returned resp) /\
  (forall res, exists r, ParseSqrtPriceX96 res = Returned r).
Proof.
  intros Habi. split; [|intros res; by apply ParseSqrtPriceX96_returns].
  unfold Fetch.
  destruct (buildBatch tickers [] [] poolCache) as [[[e|[be ps]] c'] ev]
    eqn:Hbuild; [by eexists|].
  destruct (buildBatch_completes _ _ _ _ _ _ _ _ Hbuild)
    as (added & _ & Hps & Hall & _).
  simpl in Hps. subst ps.
  destruct (BatchCallContext be) as [[e|] cells]; [by eexists|].
  destruct (parseResults_returns 0 tickers cells added ∅ ∅ Habi)
    as ([res unres] & Hrun).
  { by rewrite (Forall2_length _ _ _ Hall). }
  unfold result; simpl. rewrite Hrun. by eexists.
Qed.

(** ** An empty input, and a warm cache *)

(** X12. With no tickers [Fetch] still calls the EVM client, once and with
    an empty batch, and answers with an empty response whether or not that
    call fails; it reads and writes nothing of the cache. *)
Theorem Fetch_of_no_tickers poolCache :
  result (Fetch [] poolCache) = Returned (NewPriceResponse ∅ ∅) /\
  cache (Fetch [] poolCache) = poolCache /\
  events (Fetch [] poolCache) = [CallBatchCallContext []].
Proof.
  unfold Fetch. simpl. by destruct (BatchCallContext []) as [[e|] cells].
Qed.



(** ** The keys of a response *)

(** The keys of the two maps are the given tickers, and no ticker is a key
    of both. *)
Definition keyedBy (tickers : list Ticker) (exclusive : Prop)
    (resp : PriceResponse) : Prop :=
  (forall ticker,
      is_Some (Resolved resp !! ticker) \/ is_Some (UnResolved resp !! ticker)
      <-> ticker ∈ tickers) /\
  (exclusive ->
   forall ticker,
     is_Some (Resolved resp !! ticker) ->
     is_Some (UnResolved resp !! ticker) -> False).

Lemma NewPriceResponseWithErr_keyedBy tickers err :
  keyedBy tickers True (NewPriceResponseWithErr tickers err).
Proof.
  unfold NewPriceResponseWithErr. split; simpl.
  - intros ticker. rewrite fold_insert_unresolved, lookup_empty.
    destruct (decide (ticker ∈ tickers)) as [Hin|Hnin].
    + split; [done|]. intros _. right. by eexists.
    + split; [|done]. by intros [[? [=]]|[? [=]]].
  - intros _ ticker. rewrite lookup_empty. by intros [? [=]].
Qed.

Lemma parseResults_keyedBy tickers cells pools resolved unResolved :
  parseResults 0 tickers cells pools ∅ ∅ = Returned (resolved, unResolved) ->
  keyedBy tickers (NoDup tickers) (NewPriceResponse resolved unResolved).
Proof.
  intros Hrun. split; simpl.
  - intros ticker. split.
    + intros Hsome. destruct (decide (ticker ∈ tickers)) as [Hin|Hnin]; [done|].
      destruct (parseResults_other _ _ _ _ _ _ _ _ _ Hrun Hnin) as [Hr Hu].
      rewrite Hr, Hu, !lookup_empty in Hsome.
      by destruct Hsome as [[? [=]]|[? [=]]].
    + intros Hin. by eapply parseResults_covers.
  - intros Hnodup ticker Hres Hunres.
    destruct (decide (ticker ∈ tickers)) as [Hin|Hnin].
    + apply list_elem_of_lookup in Hin as [i Hi].
      pose proof (parseResults_cell _ _ _ _ _ _ _ _ _ _ Hrun Hnodup Hi) as Hcell.
      simpl in Hcell.
      destruct (classify (cells i)) as [[err|z]|]; [| |done].
      * destruct Hcell as [_ Hr]. rewrite Hr, lookup_empty in Hres.
        by destruct Hres as [? [=]].
      * destruct Hcell as (pool & _ & _ & Hu).
        rewrite Hu, lookup_empty in Hunres. by destruct Hunres as [? [=]].
    + destruct (parseResults_other _ _ _ _ _ _ _ _ _ Hrun Hnin) as [Hr _].
      rewrite Hr, lookup_empty in Hres. by destruct Hres as [? [=]].
Qed.

Lemma Fetch_keyedBy tickers poolCache resp :
  result (Fetch tickers poolCache) = Returned resp ->
  keyedBy tickers (NoDup tickers) resp.
Proof.
  unfold Fetch, result.
  assert (forall err,
             keyedBy tickers (NoDup tickers)
               (NewPriceResponseWithErr tickers err)) as Hfail.
  { intros err. destruct (NewPriceResponseWithErr_keyedBy tickers err)
      as [Hkeys Hex]. split; [done|]. intros _. by apply Hex. }
  destruct (buildBatch tickers [] [] poolCache) as [[[e|[be ps]] c'] ev];
    simpl.
  { intros [= <-]. apply Hfail. }
  destruct (BatchCallContext be) as [[e|] cells]; simpl.
  { intros [= <-]. apply Hfail. }
  destruct (parseResults 0 tickers cells ps ∅ ∅) as [[res unres]|] eqn:Hrun;
    [|discriminate].
  intros [= <-]. by eapply parseResults_keyedBy.
Qed.

(** X14. Whatever path [Fetch] takes, the response it returns has exactly
    the input tickers as keys: the keys of the resolved and of the
    unresolved map together are the set of input tickers. For pairwise
    distinct input tickers no ticker is in both maps, so the two maps hold as
    many entries as there are input tickers. *)
Theorem Fetch_response_is_keyed_by_the_tickers tickers poolCache resp :
  result (Fetch tickers poolCache) = Returned resp ->
  dom (Resolved resp) ∪ dom (UnResolved resp) = list_to_set tickers /\
  (NoDup tickers ->
   dom (Resolved resp) ## dom (UnResolved resp) /\
   (size (Resolved resp) + size (UnResolved resp) = length tickers)%nat).
Proof.
  intros Hresp. destruct (Fetch_keyedBy _ _ _ Hresp) as [Hkeys Hex].
  assert (dom (Resolved resp) ∪ dom (UnResolved resp)
          = (list_to_set tickers : gset Ticker)) as Hdom.
  { apply set_eq. intros ticker.
    rewrite elem_of_union, !elem_of_dom, elem_of_list_to_set. apply Hkeys. }
  split; [exact Hdom|]. intros Hnodup.
  assert (dom (Resolved resp) ## dom (UnResolved resp)) as Hdisj.
  { intros ticker. rewrite !elem_of_dom. by apply Hex. }
  split; [exact Hdisj|].
  rewrite <- (size_dom (Resolved resp)), <- (size_dom (UnResolved resp)).
  rewrite <- size_union by done. rewrite Hdom.
  by apply size_list_to_set.
Qed.

(** ** The first pool that cannot be got *)

(** What [GetPool] asks of the libraries when it is called on each of
    [tickers] in turn. *)
Fixpoint getPoolEvents (tickers : list Ticker)
    (poolCache : gmap Ticker PoolConfig) : list event :=
  match tickers with
  | [] => []
  | ticker :: rest =>
      events (GetPool ticker poolCache)
        ++ getPoolEvents rest (cache (GetPool ticker poolCache))
  end.

Lemma cacheAfter_lookup_other tickers poolCache ticker :
  ticker ∉ tickers ->
  cacheAfter tickers poolCache !! ticker = poolCache !! ticker.
Proof.
  revert poolCache. induction tickers as [|t rest IH]; intros c Hnin; [done|].
  apply not_elem_of_cons in Hnin as [Hne Hnin]. simpl.
  rewrite IH by done. by apply GetPool_lookup_other.
Qed.

Lemma poolError_same_lookup ticker c1 c2 :
  c1 !! ticker = None -> c2 !! ticker = None ->
  poolError ticker c1 = poolError ticker c2.
Proof.
  intros H1 H2. unfold poolError, result, GetPool. rewrite H1, H2.
  destruct (jsonUnmarshal (Metadata_JSON ticker)) as [cfg [err|]]; [done|].
  by destruct (ValidateBasic cfg).
Qed.

Lemma buildBatch_stops_at_first_failure pre ticker post batchElems pools
    poolCache e :
  (forall t, t ∈ pre -> poolError t poolCache = None) ->
  poolError ticker poolCache = Some e ->
  buildBatch (pre ++ ticker :: post) batchElems pools poolCache
  = (inl e, cacheAfter pre poolCache,
     getPoolEvents (pre ++ [ticker]) poolCache).
Proof.
  revert batchElems pools poolCache.
  induction pre as [|t pre IH]; intros be ps c Hpre Hfail.
  - simpl app. rewrite buildBatch_cons. unfold poolError, result in Hfail.
    simpl. unfold events.
    destruct (GetPool ticker c) as [[[cfg [err|]] c'] ev] eqn:Hget;
      simpl in Hfail; [|discriminate].
    injection Hfail as ->.
    apply GetPool_failure in Hget as (-> & _). simpl. by rewrite app_nil_r.
  - simpl app. rewrite buildBatch_cons.
    pose proof (Hpre t (list_elem_of_here _ _)) as Ht.
    pose proof (GetPool_cache_mono t c) as Hmono.
    simpl. unfold poolError, result, cache, events in *.
    destruct (GetPool t c) as [[[pool [err|]] c'] ev] eqn:Hget; simpl in *;
      [discriminate|].
    assert (t <> ticker) as Hne.
    { intros ->. rewrite Hget in Hfail. discriminate. }
    rewrite (IH (be ++ [batchElemFor pool]) (ps ++ [pool]) c'); [done| |].
    + intros t' Hin. eapply poolError_None_mono; [exact Hmono|].
      by apply Hpre, list_elem_of_further.
    + assert (c !! ticker = None) as Hc.
      { unfold GetPool in Hfail. by destruct (c !! ticker). }
      fold (result (GetPool ticker c')). fold (poolError ticker c').
      rewrite (poolError_same_lookup ticker c' c); [exact Hfail| |exact Hc].
      pose proof (GetPool_lookup_other t ticker c Hne) as Hother.
      unfold cache in Hother. rewrite Hget in Hother. simpl in Hother.
      by rewrite Hother.
Qed.

(** X15. When pools cannot be got, it is the first such ticker, in input
    order, that decides: [Fetch] answers for every input ticker with that
    ticker's error, wrapped, under [ErrorFailedToDecode]; the tickers after
    it are not looked at, so the cache has gained the pools of the tickers
    before it and nothing else, and the libraries were asked about the
    tickers up to it and no further. *)
Theorem Fetch_reports_first_pool_failure pre ticker post poolCache e :
  (forall t, t ∈ pre -> poolError t poolCache = None) ->
  poolError ticker poolCache = Some e ->
  Fetch (pre ++ ticker :: post) poolCache
  = (Returned
       (NewPriceResponseWithErr (pre ++ ticker :: post)
          (NewErrorWithCode (Wrap "failed to get pool" e) ErrorFailedToDecode)),
     cacheAfter pre poolCache,
     getPoolEvents (pre ++ [ticker]) poolCache).
Proof.
  intros Hpre Hfail. unfold Fetch.
  by rewrite (buildBatch_stops_at_first_failure _ _ _ _ _ _ _ Hpre Hfail).
Qed.

(** ** The codes of the unresolved entries *)

Lemma parseResults_codes i tickers cells pools resolved unResolved
    resolved' unResolved' :
  parseResults i tickers cells pools resolved unResolved
    = Returned (resolved', unResolved') ->
  map_Forall
    (fun _ u =>
       ewc_code (unresolved_ErrorWithCode u) = ErrorUnknown \/
       ewc_code (unresolved_ErrorWithCode u) = ErrorFailedToParsePrice)
    unResolved ->
  map_Forall
    (fun _ u =>
       ewc_code (unresolved_ErrorWithCode u) = ErrorUnknown \/
       ewc_code (unresolved_ErrorWithCode u) = ErrorFailedToParsePrice)
    unResolved'.
Proof.
  revert i resolved unResolved.
  induction tickers as [|t rest IH]; intros i res unres.
  - by intros [= <- <-].
  - simpl. destruct (Error (cells i)) as [err|].
    + intros Hrun Hcodes. eapply IH; [exact Hrun|].
      apply map_Forall_insert_2; [by left|done].
    + destruct (ParseSqrtPriceX96 (Result (cells i))) as [[err|z]|];
        [| |discriminate].
      * intros Hrun Hcodes. eapply IH; [exact Hrun|].
        apply map_Forall_insert_2; [by right|done].
      * destruct (pools !! i) as [pool|]; [|discriminate].
        intros Hrun Hcodes. by eapply IH.
Qed.

(** X16. The error codes of a response tell the two kinds of failure apart.
    An unresolved entry with [ErrorFailedToDecode] or [ErrorAPIGeneral] only
    occurs in an answer for the whole batch: then nothing is resolved and
    every input ticker is unresolved with that same error. The entries of a
    response with per-ticker results carry [ErrorUnknown] or
    [ErrorFailedToParsePrice], and no other code. *)
Theorem Fetch_error_codes_tell_batch_failures_apart tickers poolCache resp
    ticker u :
  result (Fetch tickers poolCache) = Returned resp ->
  UnResolved resp !! ticker = Some u ->
  match ewc_code (unresolved_ErrorWithCode u) with
  | ErrorFailedToDecode | ErrorAPIGeneral =>
      allUnresolved tickers (unresolved_ErrorWithCode u) (Returned resp)
  | ErrorUnknown | ErrorFailedToParsePrice =>
      map_Forall
        (fun _ u' =>
           ewc_code (unresolved_ErrorWithCode u') = ErrorUnknown \/
           ewc_code (unresolved_ErrorWithCode u') = ErrorFailedToParsePrice)
        (UnResolved resp)
  end.
Proof.
  unfold Fetch, result.
  assert (forall err code,
             code = ErrorFailedToDecode \/ code = ErrorAPIGeneral ->
             UnResolved (NewPriceResponseWithErr tickers (NewErrorWithCode err code))
               !! ticker = Some u ->
             match ewc_code (unresolved_ErrorWithCode u) with
             | ErrorFailedToDecode | ErrorAPIGeneral =>
                 allUnresolved tickers (unresolved_ErrorWithCode u)
                   (Returned
                      (NewPriceResponseWithErr tickers
                         (NewErrorWithCode err code)))
             | ErrorUnknown | ErrorFailedToParsePrice =>
                 map_Forall
                   (fun _ u' =>
                      ewc_code (unresolved_ErrorWithCode u') = ErrorUnknown \/
                      ewc_code (unresolved_ErrorWithCode u')
                      = ErrorFailedToParsePrice)
                   (UnResolved
                      (NewPriceResponseWithErr tickers
                         (NewErrorWithCode err code)))
             end) as Hfail.
  { intros err code Hcode Hu.
    destruct (NewPriceResponseWithErr_allUnresolved tickers
                (NewErrorWithCode err code)) as (resp' & [= <-] & _ & Hall).
    rewrite Hall in Hu. destruct (decide (ticker ∈ tickers)); [|discriminate].
    injection Hu as <-. simpl.
    destruct Hcode as [-> | ->]; apply NewPriceResponseWithErr_allUnresolved. }
  destruct (buildBatch tickers [] [] poolCache) as [[[e|[be ps]] c'] ev];
    simpl.
  { intros [= <-]. apply Hfail. by left. }
  destruct (BatchCallContext be) as [[e|] cells]; simpl.
  { intros [= <-]. apply Hfail. by right. }
  destruct (parseResults 0 tickers cells ps ∅ ∅) as [[res unres]|] eqn:Hrun;
    [|discriminate].
  intros [= <-] Hu. simpl in *.
  pose proof (parseResults_codes _ _ _ _ _ _ _ _ Hrun (map_Forall_empty _))
    as Hcodes.
  destruct (Hcodes _ _ Hu) as [-> | ->]; exact Hcodes.
Qed.

End Fetcher.

End UniswapV3.

(** * Test doubles for the fetcher's collaborators, and the runs the theorems
    above are instantiated at *)

Module UniswapV3Examples.
Import UniswapV3.
Local Open Scope Z_scope.

(** Pool configurations are pool addresses, errors are messages, big floats
    are integers and times are clock ticks. *)
Definition fakeUnmarshal (metadata : string) : string * option string :=
  match metadata with
  | EmptyString => (EmptyString, Some "unexpected end of JSON input"%string)
  | _ => (metadata, None)
  end.

Definition fakeValidateBasic (cfg : string) : option string :=
  if String.prefix "0x" cfg then None
  else Some "pool address is not a valid ethereum address"%string.

Definition fakeHexDecode (s : string) : string + list byte :=
  match s with
  | EmptyString => inl "empty hex string"%string
  | _ => inr (String.list_byte_of_string s)
  end.

Definition fakeUnpackValues (bz : list byte) : string + list abiValue :=
  match bz with
  | [] => inl "abi: attempting to unmarshal an empty string"%string
  | b :: _ => inr [AbiBigInt (Z.of_N (Byte.to_N b)); AbiOther]
  end.

Definition fakeConvert (sqrtPriceX96 : Z) : Z := sqrtPriceX96 * sqrtPriceX96.

Definition fakeScalePrice (ticker : Ticker) (pool : string) (price : Z) : Z :=
  price * 10 ^ Z.of_N (Decimals ticker).

Definition fakeTimeNow (i : nat) : nat := (100 + i)%nat.

(** A cell the client has answered: the pool at [0xbad] reverts, any other
    pool answers with the hex string [0x10]. *)
Definition answered (elem : @BatchElem string) : @BatchElem string :=
  if String.eqb (Args_to elem) "0xbad"
  then {| Method := Method elem; Args_to := Args_to elem;
          Args_data := Args_data elem; Args_block := Args_block elem;
          Result := Result elem; Error := Some "execution reverted"%string |}
  else {| Method := Method elem; Args_to := Args_to elem;
          Args_data := Args_data elem; Args_block := Args_block elem;
          Result := PtrString (Some "0x10"%string); Error := None |}.

Definition untouched : @BatchElem string :=
  {| Method := EmptyString; Args_to := EmptyString; Args_data := [];
     Args_block := EmptyString; Result := OtherType; Error := None |}.

(** A client that answers every cell. *)
Definition okClient (batchElems : list (@BatchElem string))
  : option string * (nat -> @BatchElem string) :=
  (None, fun i => answered (nth i batchElems untouched)).

(** A client that cannot reach the node. *)
Definition downClient (batchElems : list (@BatchElem string))
  : option string * (nat -> @BatchElem string) :=
  (Some "connection refused"%string, fun i => nth i batchElems untouched).

(** A client whose first request of a batch times out. *)
Definition flakyClient (batchElems : list (@BatchElem string))
  : option string * (nat -> @BatchElem string) :=
  (None,
   fun i =>
     match i with
     | O => {| Method := "eth_call"; Args_to := EmptyString; Args_data := [];
               Args_block := "latest";
               Result := PtrString (Some EmptyString);
               Error := Some "request timed out"%string |}
     | S _ => answered (nth i batchElems untouched)
     end).

Definition fakeGetPool := GetPool fakeUnmarshal fakeValidateBasic.

Definition fakeFetch client :=
  Fetch (Time := nat) [x38; x50; xef; xc5] (fun pool : string => pool)
    fakeUnmarshal fakeValidateBasic client fakeHexDecode fakeUnpackValues
    fakeConvert fakeScalePrice (fun price : Z => price) fakeTimeNow.

Definition tickerA : Ticker :=
  {| Base := "WETH"; Quote := "USDC"; Decimals := 2; MinProviderCount := 1;
     Metadata_JSON := "0xaaa" |}.
Definition tickerB : Ticker :=
  {| Base := "WBTC"; Quote := "USDC"; Decimals := 2; MinProviderCount := 1;
     Metadata_JSON := "0xbad" |}.
Definition tickerC : Ticker :=
  {| Base := "MOG"; Quote := "WETH"; Decimals := 3; MinProviderCount := 1;
     Metadata_JSON := "0xccc" |}.
(** A ticker whose metadata does not hold a valid pool address. *)
Definition tickerD : Ticker :=
  {| Base := "PEPE"; Quote := "WETH"; Decimals := 3; MinProviderCount := 1;
     Metadata_JSON := "not-a-pool" |}.

Definition noCache : gmap Ticker string := ∅.

Example fakeGetPool_parses_once :
  fakeGetPool tickerA noCache
    = (("0xaaa"%string, None), <[tickerA := "0xaaa"%string]> noCache,
       [CallUnmarshal "0xaaa"; CallValidateBasic "0xaaa"%string]) /\
  fakeGetPool tickerA (cache (fakeGetPool tickerA noCache))
    = (("0xaaa"%string, None), <[tickerA := "0xaaa"%string]> noCache, []).
Proof. split; reflexivity. Qed.

Example fakeGetPool_fails_again :
  fakeGetPool tickerD noCache
    = (("not-a-pool"%string,
        Some (Wrap "invalid ticker pool config"
                (LibErr "pool address is not a valid ethereum address"%string))),
       noCache,
       [CallUnmarshal "not-a-pool"; CallValidateBasic "not-a-pool"%string]) /\
  fakeGetPool tickerD (cache (fakeGetPool tickerD noCache))
    = fakeGetPool tickerD noCache.
Proof. split; reflexivity. Qed.

Example fakeFetch_resolves_A_and_C :
  exists resp,
    result (fakeFetch okClient [tickerA; tickerB; tickerC] noCache)
      = Returned resp /\
    Resolved resp !! tickerA = Some (NewPriceResult 230400 100%nat) /\
    UnResolved resp !! tickerA = None /\
    Resolved resp !! tickerB = None /\
    UnResolved resp !! tickerB
      = Some {| unresolved_ErrorWithCode :=
                  NewErrorWithCode (LibErr "execution reverted"%string)
                    ErrorUnknown |} /\
    Resolved resp !! tickerC = Some (NewPriceResult 2304000 102%nat).
Proof. eexists. split; [reflexivity|]. vm_compute. by repeat split. Qed.

Example fakeFetch_bad_pool_fails_the_batch :
  tickerD ∈ [tickerA; tickerD; tickerC] /\
  poolError fakeUnmarshal fakeValidateBasic tickerD noCache <> None /\
  fakeFetch okClient [tickerA; tickerD; tickerC] noCache
    = (Returned
         (NewPriceResponseWithErr [tickerA; tickerD; tickerC]
            (NewErrorWithCode
               (Wrap "failed to get pool"
                  (Wrap "invalid ticker pool config"
                     (LibErr "pool address is not a valid ethereum address"%string)))
               ErrorFailedToDecode)),
       <[tickerA := "0xaaa"%string]> noCache,
       [CallUnmarshal "0xaaa"; CallValidateBasic "0xaaa"%string;
        CallUnmarshal "not-a-pool"; CallValidateBasic "not-a-pool"%string]).
Proof.
  split; [apply list_elem_of_further, list_elem_of_here|].
  split; [discriminate|reflexivity].
Qed.

Example fakeFetch_down_client_fails_the_batch :
  result (fakeFetch downClient [tickerA; tickerC] noCache)
    = Returned
        (NewPriceResponseWithErr [tickerA; tickerC]
           (NewErrorWithCode (LibErr "connection refused"%string)
              ErrorAPIGeneral)).
Proof. reflexivity. Qed.

(** The cache theorem at [tickerA], whose metadata parses, with calls on
    two other tickers in between, and at [tickerD], whose metadata does
    not. *)
Lemma GetPool_idempotent_witness :
  (fakeGetPool tickerA noCache
     = (("0xaaa"%string, None), <[tickerA := "0xaaa"%string]> noCache,
        [CallUnmarshal "0xaaa"; CallValidateBasic "0xaaa"%string]) /\
   fakeGetPool tickerD noCache
     = (("not-a-pool"%string,
         Some (Wrap "invalid ticker pool config"
                 (LibErr "pool address is not a valid ethereum address"%string))),
        noCache,
        [CallUnmarshal "not-a-pool"; CallValidateBasic "not-a-pool"%string])) /\
  fakeGetPool tickerA
    (cacheAfter fakeUnmarshal fakeValidateBasic [tickerC; tickerD]
       (<[tickerA := "0xaaa"%string]> noCache))
  = (("0xaaa"%string, None),
     cacheAfter fakeUnmarshal fakeValidateBasic [tickerC; tickerD]
       (<[tickerA := "0xaaa"%string]> noCache), []) /\
  fakeGetPool tickerD noCache
  = (("not-a-pool"%string,
      Some (Wrap "invalid ticker pool config"
              (LibErr "pool address is not a valid ethereum address"%string))),
     noCache,
     [CallUnmarshal "not-a-pool"; CallValidateBasic "not-a-pool"%string]) /\
  CallUnmarshal "not-a-pool"
    ∈ [@CallUnmarshal string string "not-a-pool";
       CallValidateBasic "not-a-pool"%string].
Proof.
  assert (fakeGetPool tickerA noCache
          = (("0xaaa"%string, None), <[tickerA := "0xaaa"%string]> noCache,
             [CallUnmarshal "0xaaa"; CallValidateBasic "0xaaa"%string])) as HA
    by reflexivity.
  assert (fakeGetPool tickerD noCache
          = (("not-a-pool"%string,
              Some (Wrap "invalid ticker pool config"
                      (LibErr "pool address is not a valid ethereum address"%string))),
             noCache,
             [CallUnmarshal "not-a-pool"; CallValidateBasic "not-a-pool"%string]))
    as HD by reflexivity.
  split; [by split|].
  destruct (GetPool_cached_idempotent fakeUnmarshal fakeValidateBasic
              tickerA noCache) as [Hok _].
  destruct (GetPool_cached_idempotent fakeUnmarshal fakeValidateBasic
              tickerD noCache) as [_ Hfail].
  split; [exact (Hok _ _ _ HA [tickerC; tickerD])|].
  destruct (Hfail _ _ _ _ HD) as (_ & Hagain & Hparse).
  split; [exact Hagain|exact Hparse].
Defined.

(** The batch-failure theorem at a batch holding [tickerD], whose pool
    cannot be got, and at a client that cannot reach the node. *)
Lemma Fetch_fails_witness :
  (tickerD ∈ [tickerA; tickerD; tickerC] /\
   poolError fakeUnmarshal fakeValidateBasic tickerD noCache <> None) /\
  (exists err,
      allUnresolved [tickerA; tickerD; tickerC]
        (NewErrorWithCode (Wrap "failed to get pool" err) ErrorFailedToDecode)
        (result (fakeFetch okClient [tickerA; tickerD; tickerC] noCache))) /\
  (exists batchElems,
      CallBatchCallContext batchElems
        ∈ events (fakeFetch downClient [tickerA; tickerC] noCache) /\
      (downClient batchElems).1 = Some "connection refused"%string) /\
  allUnresolved [tickerA; tickerC]
    (NewErrorWithCode (LibErr "connection refused"%string) ErrorAPIGeneral)
    (result (fakeFetch downClient [tickerA; tickerC] noCache)).
Proof.
  assert (tickerD ∈ [tickerA; tickerD; tickerC]) as Hin
    by apply list_elem_of_further, list_elem_of_here.
  assert (poolError fakeUnmarshal fakeValidateBasic tickerD noCache <> None)
    as Hfail by discriminate.
  assert (CallBatchCallContext
            [batchElemFor [x38; x50; xef; xc5] (fun pool : string => pool)
               "0xaaa"%string;
             batchElemFor [x38; x50; xef; xc5] (fun pool : string => pool)
               "0xccc"%string]
            ∈ events (fakeFetch downClient [tickerA; tickerC] noCache)) as Hev.
  { apply list_elem_of_In. vm_compute. tauto. }
  split; [by split|].
  destruct (Fetch_fails_as_a_whole
              [x38; x50; xef; xc5] (fun pool : string => pool)
              fakeUnmarshal fakeValidateBasic okClient fakeHexDecode
              fakeUnpackValues fakeConvert fakeScalePrice
              (fun price : Z => price) fakeTimeNow
              [tickerA; tickerD; tickerC] noCache) as [Hpool _].
  destruct (Fetch_fails_as_a_whole
              [x38; x50; xef; xc5] (fun pool : string => pool)
              fakeUnmarshal fakeValidateBasic downClient fakeHexDecode
              fakeUnpackValues fakeConvert fakeScalePrice
              (fun price : Z => price) fakeTimeNow
              [tickerA; tickerC] noCache) as [_ Hbatch].
  split; [exact (Hpool tickerD Hin Hfail)|].
  split; [by eexists|].
  exact (Hbatch _ _ Hev eq_refl).
Defined.

Lemma fakeUnpackValues_slot0 : slot0Unpacks fakeUnpackValues.
Proof.
  intros bz out. unfold fakeUnpackValues. destruct bz as [|b bz]; [discriminate|].
  intros [= <-]. by eexists _, _.
Qed.

(** The per-ticker theorem at three distinct tickers, the second of which
    gets an RPC error. *)
Lemma Fetch_by_cell_witness :
  (slot0Unpacks fakeUnpackValues /\
   (forall ticker,
       ticker ∈ [tickerA; tickerB; tickerC] ->
       poolError fakeUnmarshal fakeValidateBasic ticker noCache = None) /\
   (forall batchElems,
       CallBatchCallContext batchElems
         ∈ events (fakeFetch okClient [tickerA; tickerB; tickerC] noCache) ->
       (okClient batchElems).1 = None) /\
   NoDup [tickerA; tickerB; tickerC]) /\
  exists resp,
    result (fakeFetch okClient [tickerA; tickerB; tickerC] noCache)
      = Returned resp /\
    (Resolved resp !! tickerA = Some (NewPriceResult 230400 100%nat) /\
     UnResolved resp !! tickerA = None) /\
    (UnResolved resp !! tickerB
       = Some {| unresolved_ErrorWithCode :=
                   NewErrorWithCode (LibErr "execution reverted"%string)
                     ErrorUnknown |} /\
     Resolved resp !! tickerB = None) /\
    (Resolved resp !! tickerC = Some (NewPriceResult 2304000 102%nat) /\
     UnResolved resp !! tickerC = None).
Proof.
  assert (forall ticker,
             ticker ∈ [tickerA; tickerB; tickerC] ->
             poolError fakeUnmarshal fakeValidateBasic ticker noCache = None)
    as Hpools.
  { intros ticker Hin.
    repeat (apply elem_of_cons in Hin as [->|Hin]; [reflexivity|]).
    by apply elem_of_nil in Hin. }
  assert (forall batchElems,
             CallBatchCallContext batchElems
               ∈ events (fakeFetch okClient [tickerA; tickerB; tickerC] noCache) ->
             (okClient batchElems).1 = None) as Hbatch.
  { intros batchElems _. reflexivity. }
  assert (NoDup [tickerA; tickerB; tickerC]) as Hnodup.
  { repeat (apply NoDup_cons; split;
              [intros Hin;
               repeat (apply elem_of_cons in Hin as [Hin|Hin]; [discriminate|]);
               by apply elem_of_nil in Hin|]).
    apply NoDup_nil_2. }
  split; [by repeat split; try exact fakeUnpackValues_slot0|].
  destruct (Fetch_resolves_each_ticker_by_its_own_cell
              [x38; x50; xef; xc5] (fun pool : string => pool)
              fakeUnmarshal fakeValidateBasic okClient fakeHexDecode
              fakeUnpackValues fakeConvert fakeScalePrice
              (fun price : Z => price) fakeTimeNow
              [tickerA; tickerB; tickerC] noCache
              fakeUnpackValues_slot0 Hpools Hbatch)
    as (batchElems & resp & Hin & Hresp & _ & _ & _ & Hcells).
  exists resp. split; [exact Hresp|].
  assert (batchElems
          = [batchElemFor [x38; x50; xef; xc5] (fun pool : string => pool)
               "0xaaa"%string;
             batchElemFor [x38; x50; xef; xc5] (fun pool : string => pool)
               "0xbad"%string;
             batchElemFor [x38; x50; xef; xc5] (fun pool : string => pool)
               "0xccc"%string]) as ->.
  { vm_compute in Hin. vm_compute.
    repeat (apply elem_of_cons in Hin as [Hin|Hin]; [congruence|]).
    by apply elem_of_nil in Hin. }
  pose proof (Hcells Hnodup 0%nat tickerA eq_refl) as HA.
  pose proof (Hcells Hnodup 1%nat tickerB eq_refl) as HB.
  pose proof (Hcells Hnodup 2%nat tickerC eq_refl) as HC.
  cbn in HA, HB, HC.
  destruct HA as (poolA & _ & HA1 & HA2).
  destruct HB as [HB1 HB2].
  destruct HC as (poolC & _ & HC1 & HC2).
  repeat split; assumption.
Defined.

(** The same ticker twice in the input, and a client whose first request
    times out: [GetPool] succeeds for the ticker, the batch call succeeds as
    a whole, and the ticker is in both maps of the response. *)
Lemma Fetch_repeated_ticker_in_both_maps :
  (forall ticker,
      ticker ∈ [tickerA; tickerA] ->
      poolError fakeUnmarshal fakeValidateBasic ticker noCache = None) /\
  (forall batchElems, (flakyClient batchElems).1 = None) /\
  exists resp,
    result (fakeFetch flakyClient [tickerA; tickerA] noCache) = Returned resp /\
    Resolved resp !! tickerA = Some (NewPriceResult 230400 101%nat) /\
    UnResolved resp !! tickerA
      = Some {| unresolved_ErrorWithCode :=
                  NewErrorWithCode (LibErr "request timed out"%string)
                    ErrorUnknown |}.
Proof.
  split.
  { intros ticker Hin.
    repeat (apply elem_of_cons in Hin as [->|Hin]; [reflexivity|]).
    by apply elem_of_nil in Hin. }
  split; [reflexivity|].
  eexists. split; [reflexivity|]. vm_compute. by split.
Qed.

(** ** More runs *)

(** A client that answers, but whose ABI library unpacks to nothing. *)
Definition emptyUnpackValues (bz : list byte) : string + list abiValue :=
  inr [].

Lemma all_pools_got :
  forall ticker,
    ticker ∈ [tickerA; tickerB; tickerC] ->
    poolError fakeUnmarshal fakeValidateBasic ticker noCache = None.
Proof.
  intros ticker Hin.
  repeat (apply elem_of_cons in Hin as [->|Hin]; [reflexivity|]).
  by apply elem_of_nil in Hin.
Qed.

(** Without the ABI's promise the second loop does panic. *)
Example Fetch_panics_on_empty_unpacking :
  result
    (Fetch (Time := nat) [x38; x50; xef; xc5] (fun pool : string => pool)
       fakeUnmarshal fakeValidateBasic okClient fakeHexDecode emptyUnpackValues
       fakeConvert fakeScalePrice (fun price : Z => price) fakeTimeNow
       [tickerA] noCache)
  = Panicked.
Proof. reflexivity. Qed.

(** The cache invariant from the empty cache, through a [Fetch] that caches
    A and C and a [GetPool] on B. *)
Lemma pool_cache_witness :
  validCache fakeUnmarshal fakeValidateBasic noCache /\
  validCache fakeUnmarshal fakeValidateBasic
    (cache (fakeFetch okClient [tickerA; tickerC] noCache)) /\
  (fakeUnmarshal (Metadata_JSON tickerB) = ("0xbad"%string, None) /\
   fakeValidateBasic "0xbad" = None).
Proof.
  assert (validCache fakeUnmarshal fakeValidateBasic noCache) as Hvalid.
  { intros ticker cfg. unfold noCache. rewrite lookup_empty. discriminate. }
  split; [exact Hvalid|].
  destruct (pool_cache_holds_validated_parses
              [x38; x50; xef; xc5] (fun pool : string => pool)
              fakeUnmarshal fakeValidateBasic okClient fakeHexDecode
              fakeUnpackValues fakeConvert fakeScalePrice
              (fun price : Z => price) fakeTimeNow
              noCache Hvalid) as [Hget Hfetch].
  split; [exact (Hfetch [tickerA; tickerC])|].
  destruct (Hget tickerB) as [_ Hparse].
  exact (Hparse "0xbad"%string eq_refl).
Defined.

(** The panic-freedom theorem at a repeated ticker and a client whose first
    request times out. *)
Lemma Fetch_does_not_panic_witness :
  slot0Unpacks fakeUnpackValues /\
  (exists resp,
      result (fakeFetch flakyClient [tickerA; tickerA] noCache) = Returned resp) /\
  (exists r,
      ParseSqrtPriceX96 fakeHexDecode fakeUnpackValues
        (PtrString (Some "0x10"%string)) = Returned r).
Proof.
  split; [exact fakeUnpackValues_slot0|].
  destruct (Fetch_does_not_panic
              [x38; x50; xef; xc5] (fun pool : string => pool)
              fakeUnmarshal fakeValidateBasic flakyClient fakeHexDecode
              fakeUnpackValues fakeConvert fakeScalePrice
              (fun price : Z => price) fakeTimeNow
              [tickerA; tickerA] noCache fakeUnpackValues_slot0)
    as [Hfetch Hparse].
  split; [exact Hfetch|exact (Hparse _)].
Defined.

(** The keys of the response for three distinct tickers, one of them
    unresolved. *)
Lemma Fetch_keys_witness :
  exists resp,
    result (fakeFetch okClient [tickerA; tickerB; tickerC] noCache)
      = Returned resp /\
    NoDup [tickerA; tickerB; tickerC] /\
    dom (Resolved resp) ∪ dom (UnResolved resp)
      = list_to_set [tickerA; tickerB; tickerC] /\
    dom (Resolved resp) ## dom (UnResolved resp) /\
    (size (Resolved resp) + size (UnResolved resp) = 3)%nat.
Proof.
  assert (NoDup [tickerA; tickerB; tickerC]) as Hnodup.
  { repeat (apply NoDup_cons; split;
              [intros Hin;
               repeat (apply elem_of_cons in Hin as [Hin|Hin]; [discriminate|]);
               by apply elem_of_nil in Hin|]).
    apply NoDup_nil_2. }
  eexists. split; [reflexivity|]. split; [exact Hnodup|].
  destruct (Fetch_response_is_keyed_by_the_tickers
              [x38; x50; xef; xc5] (fun pool : string => pool)
              fakeUnmarshal fakeValidateBasic okClient fakeHexDecode
              fakeUnpackValues fakeConvert fakeScalePrice
              (fun price : Z => price) fakeTimeNow
              [tickerA; tickerB; tickerC] noCache _ eq_refl) as [Hdom Hsize].
  split; [exact Hdom|]. exact (Hsize Hnodup).
Defined.

(** A batch whose second ticker has no valid pool: the first ticker is
    cached, the third is never parsed. *)
Lemma Fetch_first_failure_witness :
  ((forall t,
       t ∈ [tickerA] ->
       poolError fakeUnmarshal fakeValidateBasic t noCache = None) /\
   poolError fakeUnmarshal fakeValidateBasic tickerD noCache
     = Some (Wrap "invalid ticker pool config"
               (LibErr "pool address is not a valid ethereum address"%string))) /\
  fakeFetch okClient ([tickerA] ++ tickerD :: [tickerC]) noCache
  = (Returned
       (NewPriceResponseWithErr ([tickerA] ++ tickerD :: [tickerC])
          (NewErrorWithCode
             (Wrap "failed to get pool"
                (Wrap "invalid ticker pool config"
                   (LibErr "pool address is not a valid ethereum address"%string)))
             ErrorFailedToDecode)),
     cacheAfter fakeUnmarshal fakeValidateBasic [tickerA] noCache,
     getPoolEvents fakeUnmarshal fakeValidateBasic ([tickerA] ++ [tickerD])
       noCache).
Proof.
  assert (forall t,
             t ∈ [tickerA] ->
             poolError fakeUnmarshal fakeValidateBasic t noCache = None) as Hpre.
  { intros t Hin. apply list_elem_of_singleton in Hin as ->. reflexivity. }
  split; [by split|].
  exact (Fetch_reports_first_pool_failure
           [x38; x50; xef; xc5] (fun pool : string => pool)
           fakeUnmarshal fakeValidateBasic okClient fakeHexDecode
           fakeUnpackValues fakeConvert fakeScalePrice
           (fun price : Z => price) fakeTimeNow
           [tickerA] tickerD [tickerC] noCache _ Hpre eq_refl).
Defined.

(** An unresolved entry under [ErrorAPIGeneral] stands for the whole
    batch. *)
Lemma Fetch_error_codes_witness :
  exists resp u,
    result (fakeFetch downClient [tickerA; tickerC] noCache) = Returned resp /\
    UnResolved resp !! tickerA = Some u /\
    ewc_code (unresolved_ErrorWithCode u) = ErrorAPIGeneral /\
    allUnresolved [tickerA; tickerC] (unresolved_ErrorWithCode u) (Returned resp).
Proof.
  eexists _, _. split; [reflexivity|]. split; [reflexivity|].
  split; [reflexivity|].
  exact (Fetch_error_codes_tell_batch_failures_apart
           [x38; x50; xef; xc5] (fun pool : string => pool)
           fakeUnmarshal fakeValidateBasic downClient fakeHexDecode
           fakeUnpackValues fakeConvert fakeScalePrice
           (fun price : Z => price) fakeTimeNow
           [tickerA; tickerC] noCache _ tickerA _ eq_refl eq_refl).
Defined.

(** One batch call for three tickers whose pools are all got, and none for a
    batch with a bad pool. *)
Lemma Fetch_client_calls_witness :
  ((forall ticker,
       ticker ∈ [tickerA; tickerB; tickerC] ->
       poolError fakeUnmarshal fakeValidateBasic ticker noCache = None) /\
   tickerD ∈ [tickerA; tickerD] /\
   poolError fakeUnmarshal fakeValidateBasic tickerD noCache <> None) /\
  (exists batchElems,
      batchCalls (events (fakeFetch okClient [tickerA; tickerB; tickerC] noCache))
        = [batchElems] /\
      Forall2
        (fun ticker elem =>
           exists pool,
             cache (fakeFetch okClient [tickerA; tickerB; tickerC] noCache)
               !! ticker = Some pool /\
             elem = batchElemFor [x38; x50; xef; xc5]
                      (fun pool : string => pool) pool)
        [tickerA; tickerB; tickerC] batchElems) /\
  batchCalls (events (fakeFetch okClient [tickerA; tickerD] noCache)) = [].
Proof.
  assert (tickerD ∈ [tickerA; tickerD]) as Hin
    by apply list_elem_of_further, list_elem_of_here.
  assert (poolError fakeUnmarshal fakeValidateBasic tickerD noCache <> None)
    as Hfail by discriminate.
  split; [split; [exact all_pools_got|by split]|].
  destruct (Fetch_calls_client_once_with_one_element_per_ticker
              [x38; x50; xef; xc5] (fun pool : string => pool)
              fakeUnmarshal fakeValidateBasic okClient fakeHexDecode
              fakeUnpackValues fakeConvert fakeScalePrice
              (fun price : Z => price) fakeTimeNow
              [tickerA; tickerB; tickerC] noCache) as (_ & _ & Hok).
  destruct (Fetch_calls_client_once_with_one_element_per_ticker
              [x38; x50; xef; xc5] (fun pool : string => pool)
              fakeUnmarshal fakeValidateBasic okClient fakeHexDecode
              fakeUnpackValues fakeConvert fakeScalePrice
              (fun price : Z => price) fakeTimeNow
              [tickerA; tickerD] noCache) as (_ & Hnone & _).
  split; [exact (Hok all_pools_got)|exact (Hnone tickerD Hin Hfail)].
Defined.


(** A cache that holds the pool of B. *)
Definition cacheB : gmap Ticker string := <[tickerB := "0xbad"%string]> noCache.

(** The cache after a [Fetch] of A and C from a cache that holds B. *)
Lemma Fetch_cache_growth_witness :
  (forall ticker,
      ticker ∈ [tickerA; tickerC] ->
      poolError fakeUnmarshal fakeValidateBasic ticker
        cacheB = None) /\
  (tickerD ∉ [tickerA; tickerC]) /\
  (cacheB ⊆ cache (fakeFetch okClient [tickerA; tickerC] cacheB)) /\
  cache (fakeFetch okClient [tickerA; tickerC]
           cacheB) !! tickerD
    = cacheB !! tickerD /\
  is_Some (cache (fakeFetch okClient [tickerA; tickerC]
                    cacheB) !! tickerC).
Proof.
  assert (forall ticker,
             ticker ∈ [tickerA; tickerC] ->
             poolError fakeUnmarshal fakeValidateBasic ticker
               cacheB = None) as Hok.
  { intros ticker Hin.
    repeat (apply elem_of_cons in Hin as [->|Hin]; [reflexivity|]).
    by apply elem_of_nil in Hin. }
  assert (tickerD ∉ [tickerA; tickerC]) as Hnin.
  { intros Hin.
    repeat (apply elem_of_cons in Hin as [Hin|Hin]; [discriminate|]).
    by apply elem_of_nil in Hin. }
  split; [exact Hok|]. split; [exact Hnin|].
  destruct (Fetch_extends_cache_by_input_tickers
              [x38; x50; xef; xc5] (fun pool : string => pool)
              fakeUnmarshal fakeValidateBasic okClient fakeHexDecode
              fakeUnpackValues fakeConvert fakeScalePrice
              (fun price : Z => price) fakeTimeNow
              [tickerA; tickerC] cacheB)
    as (Hsub & Hother & Hcached).
  split; [exact Hsub|]. split; [exact (Hother tickerD Hnin)|].
  apply (Hcached Hok). apply list_elem_of_further, list_elem_of_here.
Defined.

End UniswapV3Examples.

(** * The combination step of the price aggregation engine *)

Module Aggregation.
Local Open Scope Qc_scope.

(** Modelled from the spec: the data model of the aggregation engine, which
    is not among the sources. A pair is its base and quote symbols. *)
Definition Pair : Type := string * string.

(** Modelled from the spec: a provider config of a ticker. *)
Record ProviderConfig := {
  source : string;
  offChainSymbol : string;
  normalizeByPair : option Pair;
  invert : bool
}.

(** Modelled from the spec: what the market map snapshot holds for a pair,
    the ticker's decimals and minimum provider count and its ordered provider
    configs. *)
Record Market := {
  decimals : N;
  minProviderCount : nat;
  providerConfigs : list ProviderConfig
}.

(** Modelled from the spec: why a pair has no price in a round. *)
Inductive UnresolvableTicker : Type :=
| ResolutionFailed (report : string)
| InsufficientProviders (have want : nat)
| NoCandidates.

(** Modelled from the spec: the median of the candidate prices, the
    aggregation engine not being among the sources. The prices are sorted;
    an odd count gives the middle value, an even count the average of the
    two middle values, taken in the rationals. No price has no median. *)
Definition median (prices : list Qc) : option Qc :=
  let sorted := merge_sort Qcle prices in
  let n := length sorted in
  match n with
  | O => None
  | S _ =>
      Some (if Nat.even n
            then (nth (n / 2 - 1) sorted 0 + nth (n / 2) sorted 0) / 2
            else nth (n / 2) sorted 0)
  end.

(** Modelled from the spec: rounding to an integer, half away from zero. *)
Definition roundHalfAwayFromZero (q : Q) : Z :=
  if Qle_bool 0 q then Qfloor (q + (1 # 2))
  else (- Qfloor (- q + (1 # 2)))%Z.

(** Modelled from the spec: the ScaledPrice of a price at a number of
    decimals, the price times ten to the decimals, rounded at the boundary. *)
Definition toScaledPrice (decimals : N) (price : Qc) : Z :=
  roundHalfAwayFromZero (this price * inject_Z (10 ^ Z.of_N decimals))%Q.

(** Modelled from the spec: the combination step for one ticker. With fewer
    candidates than [minProviderCount] the ticker has no price; otherwise its
    price is the median, rounded to the ticker's decimals. *)
Definition combine (market : Market) (candidates : list Qc)
  : UnresolvableTicker + Z :=
  if (length candidates <? minProviderCount market)%nat
  then inl (InsufficientProviders (length candidates) (minProviderCount market))
  else match median candidates with
       | None => inl NoCandidates
       | Some m => inr (toScaledPrice (decimals market) m)
       end.

Section Engine.

(** The resolution pass, whose conventions the spec leaves open: for a pair
    of the market map, the candidate prices its providers resolve to, after
    inversion and normalization, or the report of a cycle or of a dependency
    that cannot be resolved. *)
Variable resolve :
  gmap Pair Market -> gmap (string * string) Qc -> Pair -> string + list Qc.

Definition aggregateTicker (marketMap : gmap Pair Market)
    (observations : gmap (string * string) Qc) (pair : Pair) (market : Market)
  : UnresolvableTicker + Z :=
  match resolve marketMap observations pair with
  | inl report => inl (ResolutionFailed report)
  | inr candidates => combine market candidates
  end.

(** Modelled from the spec: [Aggregate], a map of prices and a map of
    errors; a pair is in the first when its ticker has a price this round
    and in the second when it has none. *)
Definition Aggregate (marketMap : gmap Pair Market)
    (observations : gmap (string * string) Qc)
  : gmap Pair Z * gmap Pair UnresolvableTicker :=
  (map_imap
     (fun pair market =>
        match aggregateTicker marketMap observations pair market with
        | inr price => Some price
        | inl _ => None
        end) marketMap,
   map_imap
     (fun pair market =>
        match aggregateTicker marketMap observations pair market with
        | inr _ => None
        | inl err => Some err
        end) marketMap).

End Engine.

(** ** What a median is *)

Definition countLt (prices : list Qc) (x : Qc) : nat :=
  length (filter (fun y => y < x) prices).

Definition countLe (prices : list Qc) (x : Qc) : nat :=
  length (filter (fun y => y ≤ x) prices).

(** [x] is at rank [k], counted from zero, among [prices]: at most [k] prices
    lie strictly below it, and more than [k] lie at or below it. *)
Definition atRank (prices : list Qc) (k : nat) (x : Qc) : Prop :=
  x ∈ prices /\ (countLt prices x <= k < countLe prices x)%nat.

(** The median: the price of middle rank for an odd count, the average of
    the two prices of middle rank for an even count. *)
Definition isMedian (prices : list Qc) (m : Qc) : Prop :=
  let n := length prices in
  if Nat.even n
  then exists lo hi,
      atRank prices (n / 2 - 1) lo /\ atRank prices (n / 2) hi /\
      m = (lo + hi) / 2
  else atRank prices (n / 2) m.

(** Two honest prices and an outlier. *)
Definition outlierPrices : list Qc :=
  [Qc_of_Z 100; Qc_of_Z 102; Qc_of_Z 1000000].

(** ** What a ScaledPrice stands for, and what rounding is *)

(** Modelled from the spec: the price a ScaledPrice stands for at a number
    of decimals, the integer divided by ten to the decimals. *)
Definition priceOfScaled (decimals : N) (scaled : Z) : Qc :=
  Qc_of_Z scaled / Qc_of_Z (10 ^ Z.of_N decimals).

(** [z] is [q] rounded to an integer, half away from zero: [z] is a nearest
    integer to [q], and when [q] lies halfway between two integers [z] is the
    one farther from zero. *)
Definition roundedHalfAway (q : Q) (z : Z) : Prop :=
  ((0 <= q)%Q ->
   (q - (1 # 2) < inject_Z z)%Q /\ (inject_Z z <= q + (1 # 2))%Q) /\
  ((q < 0)%Q ->
   (q - (1 # 2) <= inject_Z z)%Q /\ (inject_Z z < q + (1 # 2))%Q).

(** ** Ranks in a sorted list *)

Lemma countLt_perm l1 l2 x : l1 ≡ₚ l2 -> countLt l1 x = countLt l2 x.
Proof. intros H. unfold countLt. by rewrite H. Qed.

Lemma countLe_perm l1 l2 x : l1 ≡ₚ l2 -> countLe l1 x = countLe l2 x.
Proof. intros H. unfold countLe. by rewrite H. Qed.

Lemma countLt_above l x : Forall (fun y => x ≤ y) l -> countLt l x = 0%nat.
Proof.
  unfold countLt. induction 1 as [|y l Hy _ IH]; [reflexivity|].
  rewrite filter_cons_False; [exact IH|]. by apply Qcle_not_lt.
Qed.

Lemma countLt_cons y l x : (countLt (y :: l) x <= S (countLt l x))%nat.
Proof.
  unfold countLt. rewrite filter_cons. case_decide; simpl; lia.
Qed.

Lemma countLe_cons_le y l x : y ≤ x -> countLe (y :: l) x = S (countLe l x).
Proof. intros H. unfold countLe. by rewrite filter_cons_True. Qed.

Lemma nth_elem_of (l : list Qc) k : (k < length l)%nat -> nth k l 0 ∈ l.
Proof. intros H. apply list_elem_of_In. by apply nth_In. Qed.

(** In a sorted list the element at index [k] has rank [k]. *)
Lemma sorted_rank (s : list Qc) k :
  StronglySorted Qcle s ->
  (k < length s)%nat ->
  (countLt s (nth k s 0%Qc) <= k < countLe s (nth k s 0%Qc))%nat.
Proof.
  intros Hsorted. revert k.
  induction Hsorted as [|a s Hs IH Ha]; intros k Hk; simpl in Hk; [lia|].
  destruct k as [|k]; simpl.
  - rewrite countLe_cons_le by reflexivity.
    assert (countLt (a :: s) a = 0%nat) as ->; [|lia].
    apply countLt_above. constructor; [reflexivity|done].
  - assert (k < length s)%nat as Hk' by lia.
    specialize (IH k Hk').
    pose proof (countLt_cons a s (nth k s 0)).
    rewrite countLe_cons_le; [lia|].
    rewrite Forall_forall in Ha. by apply Ha, nth_elem_of.
Qed.

(** The element at index [k] of the sorted prices has rank [k] among the
    prices. *)
Lemma merge_sort_atRank prices k :
  (k < length prices)%nat ->
  atRank prices k (nth k (merge_sort Qcle prices) 0).
Proof.
  intros Hk.
  pose proof (merge_sort_Permutation Qcle prices) as Hperm.
  pose proof (StronglySorted_merge_sort Qcle prices) as Hsorted.
  assert (k < length (merge_sort Qcle prices))%nat as Hk'
    by by rewrite Hperm.
  pose proof (nth_elem_of _ k Hk') as Hin.
  pose proof (sorted_rank _ k Hsorted Hk') as Hrank.
  revert Hin Hrank. generalize (nth k (merge_sort Qcle prices) 0).
  intros x Hin Hrank. split.
  - by rewrite <- Hperm.
  - by rewrite <- (countLt_perm _ _ _ Hperm), <- (countLe_perm _ _ _ Hperm).
Qed.

Lemma filter_length_mono (P1 P2 : Qc -> Prop)
    `{!forall x, Decision (P1 x)} `{!forall x, Decision (P2 x)} (l : list Qc) :
  (forall x, P1 x -> P2 x) ->
  (length (filter P1 l) <= length (filter P2 l))%nat.
Proof.
  intros Himpl. induction l as [|y l IH]; [done|].
  rewrite !filter_cons. destruct (decide (P1 y)) as [H1|H1].
  - rewrite decide_True by auto. simpl. lia.
  - destruct (decide (P2 y)); simpl; lia.
Qed.

(** A rank is held by one value only. *)
Lemma atRank_unique prices k x y :
  atRank prices k x -> atRank prices k y -> x = y.
Proof.
  assert (forall a b, a < b -> atRank prices k a -> atRank prices k b -> False)
    as Hlt.
  { intros a b Hab [_ [_ Ha]] [_ [Hb _]].
    assert (countLe prices a <= countLt prices b)%nat; [|lia].
    apply filter_length_mono. intros z Hz. by eapply Qcle_lt_trans. }
  intros Hx Hy.
  destruct (Qclt_le_dec x y) as [Hxy|Hyx]; [by destruct (Hlt x y)|].
  destruct (Qcle_lt_or_eq _ _ Hyx) as [Hyx'|Heq]; [by destruct (Hlt y x)|done].
Qed.

Lemma isMedian_unique prices m1 m2 :
  isMedian prices m1 -> isMedian prices m2 -> m1 = m2.
Proof.
  unfold isMedian. destruct (Nat.even (length prices)).
  - intros (lo1 & hi1 & Hlo1 & Hhi1 & ->) (lo2 & hi2 & Hlo2 & Hhi2 & ->).
    by rewrite (atRank_unique _ _ _ _ Hlo1 Hlo2),
               (atRank_unique _ _ _ _ Hhi1 Hhi2).
  - apply atRank_unique.
Qed.

(** The computed median is the median. *)
Lemma median_isMedian prices :
  prices <> [] -> exists m, median prices = Some m /\ isMedian prices m.
Proof.
  intros Hne. unfold median, isMedian.
  rewrite (Permutation_length (merge_sort_Permutation Qcle prices)).
  destruct prices as [|p prices']; [done|].
  set (prices := p :: prices') in *.
  assert (0 < length prices)%nat as Hpos by (simpl; lia).
  destruct (length prices) as [|n'] eqn:Hlen; [lia|].
  rewrite <- Hlen in *. eexists. split; [reflexivity|].
  destruct (Nat.even (length prices)) eqn:Heven.
  - apply Nat.even_spec in Heven as [h Hh].
    assert (length prices / 2 = h)%nat as Hhalf.
    { rewrite Hh, Nat.mul_comm. by apply Nat.div_mul. }
    eexists _, _. split; [|split; [|reflexivity]];
      apply merge_sort_atRank; lia.
  - apply merge_sort_atRank. apply Nat.div_lt; lia.
Qed.

(** ** Rounding *)

Lemma roundHalfAwayFromZero_rounds q :
  roundedHalfAway q (roundHalfAwayFromZero q).
Proof.
  unfold roundedHalfAway, roundHalfAwayFromZero.
  destruct (Qle_bool 0 q) eqn:Hsign.
  - apply Qle_bool_iff in Hsign. split; [intros _|intros Hneg; lra].
    pose proof (Qfloor_le (q + (1 # 2))) as Hle.
    pose proof (Qlt_floor (q + (1 # 2))) as Hlt.
    rewrite inject_Z_plus in Hlt. change (inject_Z 1) with 1%Q in Hlt. lra.
  - assert (q < 0)%Q as Hneg.
    { apply Qnot_le_lt. intros Hle. apply Qle_bool_iff in Hle. congruence. }
    split; [intros Hpos; lra|intros _].
    pose proof (Qfloor_le (- q + (1 # 2))) as Hle.
    pose proof (Qlt_floor (- q + (1 # 2))) as Hlt.
    rewrite inject_Z_plus in Hlt. change (inject_Z 1) with 1%Q in Hlt.
    rewrite inject_Z_opp. lra.
Qed.

(** Rounding half away from zero leaves one integer only. *)
Lemma roundedHalfAway_unique q z1 z2 :
  roundedHalfAway q z1 -> roundedHalfAway q z2 -> z1 = z2.
Proof.
  intros [Hpos1 Hneg1] [Hpos2 Hneg2].
  assert (inject_Z z1 < inject_Z (z2 + 1) /\ inject_Z z2 < inject_Z (z1 + 1))%Q
    as [H1 H2].
  { rewrite !inject_Z_plus. change (inject_Z 1) with 1%Q.
    destruct (Qlt_le_dec q 0) as [Hq|Hq].
    - specialize (Hneg1 Hq). specialize (Hneg2 Hq). lra.
    - specialize (Hpos1 Hq). specialize (Hpos2 Hq). lra. }
  rewrite <- Zlt_Qlt in H1, H2. lia.
Qed.

Lemma roundHalfAwayFromZero_comp q1 q2 :
  (q1 == q2)%Q -> roundHalfAwayFromZero q1 = roundHalfAwayFromZero q2.
Proof.
  intros Heq. unfold roundHalfAwayFromZero.
  rewrite (Qleb_comp 0%Q 0%Q (Qeq_refl 0%Q) q1 q2 Heq).
  assert (q1 + (1 # 2) == q2 + (1 # 2))%Q as Hup by (rewrite Heq; reflexivity).
  assert (- q1 + (1 # 2) == - q2 + (1 # 2))%Q as Hdown
    by (rewrite Heq; reflexivity).
  by rewrite (Qfloor_comp _ _ Hup), (Qfloor_comp _ _ Hdown).
Qed.

Lemma roundHalfAwayFromZero_integer (z : Z) : roundHalfAwayFromZero (z # 1) = z.
Proof.
  apply (roundedHalfAway_unique (z # 1)); [apply roundHalfAwayFromZero_rounds|].
  change (z # 1)%Q with (inject_Z z). split; intros _; lra.
Qed.

Lemma toScaledPrice_integer decimals (z : Z) :
  toScaledPrice decimals (Qc_of_Z z) = (z * 10 ^ Z.of_N decimals)%Z.
Proof.
  unfold toScaledPrice. simpl. unfold Qmult. simpl.
  apply roundHalfAwayFromZero_integer.
Qed.

Lemma pow10_pos (decimals : N) : (0 < 10 ^ Z.of_N decimals)%Z.
Proof. apply Z.pow_pos_nonneg; lia. Qed.

(** A price that is a whole number of units of the last decimal is scaled
    without rounding. *)
Lemma toScaledPrice_priceOfScaled decimals z :
  toScaledPrice decimals (priceOfScaled decimals z) = z.
Proof.
  unfold toScaledPrice, priceOfScaled.
  rewrite <- (roundHalfAwayFromZero_integer z) at 2.
  apply roundHalfAwayFromZero_comp.
  pose proof (pow10_pos decimals) as Hpos.
  unfold Qcdiv, Qcmult, Qcinv. simpl this.
  rewrite !Qred_correct. change (z # 1)%Q with (inject_Z z).
  field. intros H0. rewrite Zlt_Qlt in Hpos.
  change (inject_Z 0) with 0%Q in Hpos. lra.
Qed.

Lemma priceOfScaled_scaled decimals z :
  priceOfScaled decimals (z * 10 ^ Z.of_N decimals) = Qc_of_Z z.
Proof.
  unfold priceOfScaled. rewrite Z2Qc_inj_mul.
  pose proof (pow10_pos decimals) as Hpos.
  field. rewrite <- Z2Qc_inj_0. intros H0%Z2Qc_inj. lia.
Qed.

(** No value is the median of no prices. *)
Lemma isMedian_nil m : ~ isMedian [] m.
Proof.
  unfold isMedian. simpl. intros (lo & hi & [Hlo _] & _).
  by apply elem_of_nil in Hlo.
Qed.

Example round_half_goes_away_from_zero :
  roundHalfAwayFromZero (5 # 2) = 3%Z /\
  roundHalfAwayFromZero (-5 # 2) = (-3)%Z /\
  roundHalfAwayFromZero (7 # 3) = 2%Z /\
  roundHalfAwayFromZero (-7 # 3) = (-2)%Z.
Proof. by repeat split. Qed.

(** ** The prices 100, 102 and 1000000 *)

Lemma median_outlierPrices candidates :
  candidates ≡ₚ outlierPrices -> median candidates = Some (Qc_of_Z 102).
Proof.
  intros Hperm.
  assert (merge_sort Qcle candidates = outlierPrices) as Hsort.
  { apply (StronglySorted_unique Qcle).
    - apply StronglySorted_merge_sort; apply _.
    - unfold outlierPrices.
      repeat (apply StronglySorted_cons; split;
                [repeat constructor; by apply Z2Qc_inj_le|]).
      constructor.
    - by rewrite merge_sort_Permutation. }
  unfold median. rewrite Hsort. reflexivity.
Qed.

(** ** What [Aggregate] holds for a pair *)

Lemma Aggregate_lookup resolve marketMap observations pair :
  (Aggregate resolve marketMap observations).1 !! pair =
  match marketMap !! pair with
  | Some market =>
      match aggregateTicker resolve marketMap observations pair market with
      | inr price => Some price
      | inl _ => None
      end
  | None => None
  end.
Proof.
  unfold Aggregate. simpl. rewrite map_lookup_imap.
  by destruct (marketMap !! pair).
Qed.

(** ** Claim about the median *)

(** C5. For a ticker of the market map that has at least one candidate price
    and at least [minProviderCount] of them, [Aggregate] gives the ticker the
    median of the candidates, an even count averaging the two middle values
    in the rationals, as a ScaledPrice: the median times ten to the ticker's
    decimals, rounded to an integer half away from zero. The ScaledPrice
    stands for the median itself whenever the median is a whole number of
    units of the last decimal. In particular a ticker with
    [minProviderCount] 3 and the candidates 100, 102 and 1000000, in any
    order, gets the ScaledPrice 102 * 10^decimals, which stands for the
    price 102. *)
Theorem Aggregate_outputs_rounded_median resolve marketMap observations pair
    market candidates :
  marketMap !! pair = Some market ->
  resolve marketMap observations pair = inr candidates ->
  candidates <> [] ->
  (minProviderCount market <= length candidates)%nat ->
  (exists m scaled,
      isMedian candidates m /\
      (Aggregate resolve marketMap observations).1 !! pair = Some scaled /\
      roundedHalfAway
        (this m * inject_Z (10 ^ Z.of_N (decimals market)))%Q scaled /\
      (forall z, m = priceOfScaled (decimals market) z -> scaled = z)) /\
  (minProviderCount market = 3%nat ->
   candidates ≡ₚ outlierPrices ->
   (Aggregate resolve marketMap observations).1 !! pair
     = Some (102 * 10 ^ Z.of_N (decimals market))%Z /\
   priceOfScaled (decimals market) (102 * 10 ^ Z.of_N (decimals market))
     = Qc_of_Z 102).
Proof.
  intros Hmarket Hresolve Hne Hmin.
  assert ((Aggregate resolve marketMap observations).1 !! pair
          = toScaledPrice (decimals market) <$> median candidates) as Hprice.
  { rewrite Aggregate_lookup, Hmarket. unfold aggregateTicker, combine.
    rewrite Hresolve.
    destruct (Nat.ltb_spec (length candidates) (minProviderCount market));
      [lia|].
    by destruct (median candidates). }
  split.
  - destruct (median_isMedian candidates Hne) as (m & Hm & Hmed).
    exists m, (toScaledPrice (decimals market) m).
    split; [exact Hmed|]. split; [by rewrite Hprice, Hm|].
    split; [apply roundHalfAwayFromZero_rounds|].
    intros z ->. apply toScaledPrice_priceOfScaled.
  - intros _ Hperm. split; [|apply priceOfScaled_scaled].
    rewrite Hprice, (median_outlierPrices _ Hperm). simpl.
    by rewrite toScaledPrice_integer.
Qed.

End Aggregation.

(** * A resolution pass for direct quotes, and the rounds the median theorem
    is instantiated at *)

Module AggregationExamples.
Import Aggregation.
Local Open Scope Qc_scope.

(** Direct quotes only: each provider without a normalization pair
    contributes its observation, reciprocated when [invert] is set; missing
    observations are dropped. *)
Definition directResolve (marketMap : gmap Pair Market)
    (observations : gmap (string * string) Qc) (pair : Pair)
  : string + list Qc :=
  match marketMap !! pair with
  | None => inl "pair is not in the market map"%string
  | Some market =>
      inr (omap
             (fun cfg =>
                match normalizeByPair cfg with
                | Some _ => None
                | None =>
                    (fun x => if invert cfg then / x else x)
                      <$> observations !! (source cfg, offChainSymbol cfg)
                end)
             (providerConfigs market))
  end.

Definition direct (src sym : string) : ProviderConfig :=
  {| source := src; offChainSymbol := sym; normalizeByPair := None;
     invert := false |}.

Definition BTC_USD : Pair := ("BTC"%string, "USD"%string).
Definition ETH_USD : Pair := ("ETH"%string, "USD"%string).
Definition USDT_USD : Pair := ("USDT"%string, "USD"%string).
Definition ATOM_USD : Pair := ("ATOM"%string, "USD"%string).
Definition PEPE_USD : Pair := ("PEPE"%string, "USD"%string).

Definition BTC_USD_market : Market :=
  {| decimals := 8; minProviderCount := 3;
     providerConfigs := [direct "coinbase" "btc-usd";
                         direct "binance" "btc-usd";
                         direct "okx" "btc-usd"] |}.

Definition marketMap : gmap Pair Market :=
  <[BTC_USD := BTC_USD_market]>
  (<[ETH_USD :=
      {| decimals := 2; minProviderCount := 3;
         providerConfigs := [direct "coinbase" "eth-usd";
                             direct "binance" "eth-usd"] |}]>
  (<[USDT_USD :=
      {| decimals := 1; minProviderCount := 2;
         providerConfigs := [direct "coinbase" "usdt-usd";
                             direct "binance" "usdt-usd";
                             direct "kraken" "usdt-usd";
                             direct "okx" "usdt-usd"] |}]>
  (<[ATOM_USD :=
      {| decimals := 0; minProviderCount := 2;
         providerConfigs := [direct "coinbase" "atom-usd";
                             direct "binance" "atom-usd"] |}]>
  (<[PEPE_USD :=
      {| decimals := 0; minProviderCount := 0;
         providerConfigs := [] |}]> ∅)))).

(** Coinbase reports an outlier for BTC. *)
Definition observations : gmap (string * string) Qc :=
  list_to_map
    [(("coinbase", "btc-usd")%string, Qc_of_Z 1000000);
     (("binance", "btc-usd")%string, Qc_of_Z 100);
     (("okx", "btc-usd")%string, Qc_of_Z 102);
     (("coinbase", "eth-usd")%string, Qc_of_Z 3000);
     (("binance", "eth-usd")%string, Qc_of_Z 3001);
     (("coinbase", "usdt-usd")%string, Qc_of_Z 1);
     (("binance", "usdt-usd")%string, Qc_of_Z 2);
     (("kraken", "usdt-usd")%string, Qc_of_Z 1);
     (("okx", "usdt-usd")%string, Qc_of_Z 3);
     (("coinbase", "atom-usd")%string, Qc_of_Z 1);
     (("binance", "atom-usd")%string, Qc_of_Z 2)].

(** The candidates of BTC/USD and of ATOM/USD in this round. *)
Definition candidatesBTC : list Qc :=
  [Qc_of_Z 1000000; Qc_of_Z 100; Qc_of_Z 102].

Definition candidatesATOM : list Qc := [Qc_of_Z 1; Qc_of_Z 2].

Example aggregate_round :
  (Aggregate directResolve marketMap observations).1 !! BTC_USD
    = Some 10200000000%Z /\
  (Aggregate directResolve marketMap observations).1 !! ETH_USD = None /\
  (Aggregate directResolve marketMap observations).2 !! ETH_USD
    = Some (InsufficientProviders 2 3) /\
  (Aggregate directResolve marketMap observations).1 !! USDT_USD = Some 15%Z /\
  (Aggregate directResolve marketMap observations).1 !! ATOM_USD = Some 2%Z /\
  (Aggregate directResolve marketMap observations).2 !! PEPE_USD
    = Some NoCandidates.
Proof. vm_compute. by repeat split. Qed.

Lemma candidatesBTC_outlierPrices : candidatesBTC ≡ₚ outlierPrices.
Proof.
  unfold candidatesBTC, outlierPrices.
  etrans; [apply perm_swap|]. apply perm_skip, perm_swap.
Qed.

(** The median of 1 and 2 is 3/2. *)
Lemma isMedian_candidatesATOM :
  isMedian candidatesATOM (Qc_of_Z 3 / Qc_of_Z 2).
Proof.
  exists (Qc_of_Z 1), (Qc_of_Z 2).
  split; [|split; [|by apply Qc_is_canon]].
  - split; [apply list_elem_of_here|]. vm_compute. lia.
  - split; [apply list_elem_of_further, list_elem_of_here|]. vm_compute. lia.
Qed.

(** The median theorem at BTC/USD in this round: three candidates, one of
    them an outlier, a minimum of three providers, and eight decimals. *)
Lemma Aggregate_rounded_median_witness :
  (marketMap !! BTC_USD = Some BTC_USD_market /\
   directResolve marketMap observations BTC_USD = inr candidatesBTC /\
   candidatesBTC <> [] /\
   (minProviderCount BTC_USD_market <= length candidatesBTC)%nat /\
   minProviderCount BTC_USD_market = 3%nat /\
   candidatesBTC ≡ₚ outlierPrices) /\
  (exists m scaled,
      isMedian candidatesBTC m /\
      (Aggregate directResolve marketMap observations).1 !! BTC_USD
        = Some scaled /\
      roundedHalfAway (this m * inject_Z (10 ^ 8))%Q scaled /\
      (forall z, m = priceOfScaled 8 z -> scaled = z)) /\
  (Aggregate directResolve marketMap observations).1 !! BTC_USD
    = Some 10200000000%Z /\
  priceOfScaled 8 10200000000 = Qc_of_Z 102.
Proof.
  assert (marketMap !! BTC_USD = Some BTC_USD_market) as Hmarket
    by reflexivity.
  assert (directResolve marketMap observations BTC_USD = inr candidatesBTC)
    as Hresolve by reflexivity.
  assert (candidatesBTC <> []) as Hne by discriminate.
  assert (minProviderCount BTC_USD_market <= length candidatesBTC)%nat
    as Hmin by (simpl; lia).
  split; [by repeat split; try exact candidatesBTC_outlierPrices|].
  destruct (Aggregate_outputs_rounded_median directResolve marketMap
              observations BTC_USD BTC_USD_market candidatesBTC
              Hmarket Hresolve Hne Hmin) as [Hmedian Houtlier].
  split; [exact Hmedian|].
  exact (Houtlier eq_refl candidatesBTC_outlierPrices).
Defined.

(** What [Aggregate] gives a ticker is an integer ScaledPrice, not the median
    as it stands. With the candidates 1 and 2 and no decimals the median is
    3/2 and the ticker gets 2, which stands for the price 2. At eight
    decimals the candidates 100, 102 and 1000000 give 10200000000, not 102.
    And a ticker that asks for no provider and has no candidate gets no
    price, there being no median of no candidates. *)
Lemma Aggregate_output_is_not_the_bare_median :
  (directResolve marketMap observations ATOM_USD = inr candidatesATOM /\
   (2 <= length candidatesATOM)%nat /\
   isMedian candidatesATOM (Qc_of_Z 3 / Qc_of_Z 2) /\
   (Aggregate directResolve marketMap observations).1 !! ATOM_USD
     = Some 2%Z /\
   priceOfScaled 0 2 = Qc_of_Z 2 /\
   Qc_of_Z 2 <> Qc_of_Z 3 / Qc_of_Z 2) /\
  (directResolve marketMap observations BTC_USD = inr candidatesBTC /\
   candidatesBTC ≡ₚ outlierPrices /\
   (Aggregate directResolve marketMap observations).1 !! BTC_USD
     = Some 10200000000%Z /\
   (Aggregate directResolve marketMap observations).1 !! BTC_USD
     <> Some 102%Z) /\
  (directResolve marketMap observations PEPE_USD = inr [] /\
   (Aggregate directResolve marketMap observations).1 !! PEPE_USD = None /\
   ~ (exists m, isMedian [] m)).
Proof.
  split; [|split].
  - split; [reflexivity|]. split; [simpl; lia|].
    split; [exact isMedian_candidatesATOM|].
    split; [by vm_compute|]. split; [by apply Qc_is_canon|].
    intros Heq. apply (f_equal this) in Heq. vm_compute in Heq. discriminate.
  - split; [reflexivity|]. split; [exact candidatesBTC_outlierPrices|].
    split; [by vm_compute|]. vm_compute. discriminate.
  - split; [reflexivity|]. split; [by vm_compute|].
    intros [m Hm]. exact (isMedian_nil m Hm).
Qed.

End AggregationExamples.
